(** * voice-ai-orch: the frontend's transcript reconciler, data-channel
      handler, transcript state and backend API client

    A shallow embedding of
      - [frontend/src/components/VoiceRoom.tsx]  ([ActiveCall]: the
        [agentTranscriptions] effect and [handleData]),
      - [frontend/src/App.tsx]  ([handleTranscript], [handleAgentStream],
        [handleRagSources]),
      - [frontend/src/api/client.ts]  (the nine backend calls),
    followed by the properties the specification states about them.

    React refs ([useRef]) are fields of an explicit state record that every
    function takes and returns; the callbacks a component receives as props
    ([onTranscript], [onAgentStream], [onRagSources]) are the list of calls
    it makes, in order; exceptions are a [Completion] that is either a
    returned value or a thrown error.  A function passed to a state setter
    runs inside the call or at the next render: both are modelled, and so is
    a render that runs several queued updaters. *)

From stdpp Require Import base numbers list strings.
From Stdlib Require Qcanon.
From Stdlib Require Import ssreflect.

Open Scope string_scope.
Open Scope list_scope.
Open Scope nat_scope.
#[local] Set Warnings "-register-all,-rewrite-rw".

(** ** JavaScript values and completions *)

Module Js.

(** The values [JSON.parse] can yield, and [undefined], which a property
    access on them can yield.  A JSON number is kept as a rational: no code
    here computes with numbers, only their truthiness is observed. *)
Inductive jsval : Type :=
| JUndefined
| JNull
| JBool (b : bool)
| JNum (q : Qcanon.Qc)
| JStr (s : string)
| JArr (items : list jsval)
| JObj (fields : list (string * jsval)).

(** What a thrown value is: [new Error(m)] with the argument it was built
    from, or one of the two built-in errors this code can provoke. *)
Inductive JsError : Type :=
| ErrorOf (message : jsval)
| TypeError
| SyntaxError.

Inductive Completion (A : Type) : Type :=
| Return (a : A)
| Throw (e : JsError).
Arguments Return {A} a.
Arguments Throw {A} e.

Definition bind {A B : Type} (c : Completion A) (k : A -> Completion B)
  : Completion B :=
  match c with
  | Return a => k a
  | Throw e => Throw e
  end.

(** [try { body } catch { handler }] *)
Definition try_catch {A : Type} (body : Completion A) (handler : JsError -> A) : A :=
  match body with
  | Return a => a
  | Throw e => handler e
  end.

Definition returns {A : Type} (c : Completion A) : bool :=
  match c with
  | Return _ => true
  | Throw _ => false
  end.

(** Own-property lookup in an object literal: the first binding of the key. *)
Fixpoint lookup_field (key : string) (fields : list (string * jsval)) : jsval :=
  match fields with
  | [] => JUndefined
  | (k, v) :: rest => if String.eqb k key then v else lookup_field key rest
  end.

(** [v.key] for the data properties this program reads ([type], [role],
    [text], [sources], [detail], [documents], [prompt]): a [TypeError] on
    [null] and [undefined], the field of an object, and [undefined] on
    every other value, whose prototypes define none of these names. *)
Definition getProp (v : jsval) (key : string) : Completion jsval :=
  match v with
  | JUndefined | JNull => Throw TypeError
  | JObj fields => Return (lookup_field key fields)
  | _ => Return JUndefined
  end.

(** [v === 'literal'] *)
Definition strictEqStr (v : jsval) (literal : string) : bool :=
  match v with
  | JStr s => String.eqb s literal
  | _ => false
  end.

(** ToBoolean *)
Definition truthy (v : jsval) : bool :=
  match v with
  | JUndefined | JNull => false
  | JBool b => b
  | JNum q => negb (bool_decide (q = Qcanon.Q2Qc (QArith_base.Qmake 0 1)))
  | JStr s => negb (String.eqb s "")
  | JArr _ | JObj _ => true
  end.

(** [a || b] *)
Definition or_else (a b : jsval) : jsval := if truthy a then a else b.

End Js.
Export Js.

(** [Completion] with stdpp's monad notation: [x ← c; k] is [await]ing or
    evaluating [c] and going on with [k], unless [c] throws. *)
#[export] Instance Completion_bind : MBind Completion :=
  fun A B k c => Js.bind c k.

(** ** Types shared by [VoiceRoom.tsx] and [App.tsx] *)

Inductive Role : Type := user | agent.

Definition Role_eqb (a b : Role) : bool :=
  match a, b with
  | user, user | agent, agent => true
  | _, _ => false
  end.

(** [interface TranscriptMessage { role; text }].  The [text] of a message
    built from a data-channel payload is whatever value the payload holds
    under [text]: [handleData] does not check it. *)
Record TranscriptMessage : Type := mkMsg { role : Role; text : jsval }.

(** The calls a component makes on the callbacks it was given. *)
Inductive Callback : Type :=
| OnTranscript (msg : TranscriptMessage)
| OnAgentStream (fullText : string) (isFinal : bool)
| OnRagSources (sources : jsval).

(** ** [VoiceRoom.tsx]: the [ActiveCall] component *)

Module VoiceRoom.

(** A transcription segment of [useVoiceAssistant().agentTranscriptions];
    the effect reads its [text] (here [seg_text]) and [final] fields only. *)
Record Segment : Type := mkSegment { seg_text : string; final : bool }.

(** The three refs of [ActiveCall]. *)
Record CallState : Type := mkCall {
  committedIndex : nat;
  lastText : string;
  streamingActive : bool
}.

(** [useRef(0)], [useRef('')], [useRef(false)] *)
Definition initial : CallState :=
  {| committedIndex := 0; lastText := ""; streamingActive := false |}.

(** [currentSegments.map(s => s.text).join(' ')] *)
Definition joinText (segs : list Segment) : string :=
  String.concat " " (map seg_text segs).

(** [currentSegments.every(s => s.final)] *)
Definition allFinal (segs : list Segment) : bool := forallb final segs.

(** The effect on [agentTranscriptions]: one run, from the refs before it
    to the refs after it and the [onAgentStream] calls it made. *)
Definition agentTranscriptionsEffect (st : CallState)
    (agentTranscriptions : list Segment) : CallState * list Callback :=
  if length agentTranscriptions =? 0 then
    ({| committedIndex := 0; lastText := "";
        streamingActive := streamingActive st |}, [])
  else
    let currentSegments := drop (committedIndex st) agentTranscriptions in
    if length currentSegments =? 0 then (st, [])
    else
      let text := joinText currentSegments in
      let allFinal := allFinal currentSegments in
      let '(st1, calls) :=
        if negb (String.eqb text (lastText st)) then
          ({| committedIndex := committedIndex st; lastText := text;
              streamingActive := true |},
           [OnAgentStream text allFinal])
        else (st, []) in
      let st2 :=
        if allFinal then
          {| committedIndex := length agentTranscriptions; lastText := "";
             streamingActive := streamingActive st1 |}
        else st1 in
      (st2, calls).

(** The effect run once per value of [agentTranscriptions], oldest first. *)
Fixpoint runEffects (st : CallState) (history : list (list Segment))
  : CallState * list Callback :=
  match history with
  | [] => (st, [])
  | segs :: later =>
      let '(st1, calls1) := agentTranscriptionsEffect st segs in
      let '(st2, calls2) := runEffects st1 later in
      (st2, calls1 ++ calls2)
  end.

(** The body of the [try] in [handleData]; [parsed] is the completion of
    [JSON.parse(new TextDecoder().decode(payload))]. *)
Definition handleData_body (st : CallState) (parsed : Completion jsval)
  : Completion (list Callback) :=
  msg ← parsed;
  type ← getProp msg "type";
  if strictEqStr type "transcript" then
    role ← getProp msg "role";
    if strictEqStr role "user" then
      t ← getProp msg "text";
      Return [OnTranscript {| role := user; text := t |}]
    else if strictEqStr role "agent" && negb (streamingActive st) then
      t ← getProp msg "text";
      Return [OnTranscript {| role := agent; text := t |}]
    else Return []
  else if strictEqStr type "rag_sources" then
    sources ← getProp msg "sources";
    Return [OnRagSources (or_else sources (JArr []))]
  else Return [].

(** [handleData]: [try { ... } catch { /* ignore */ }].  It writes no ref. *)
Definition handleData (st : CallState) (parsed : Completion jsval)
  : list Callback :=
  try_catch (handleData_body st parsed) (fun _ => []).

End VoiceRoom.

(** ** [App.tsx]: the transcript and sources state *)

Module App.

Record AppState : Type := mkApp {
  transcriptMessages : list TranscriptMessage;
  ragSources : jsval;
  isStreaming : bool
}.

(** [useState([])], [useState([])], [useRef(false)] *)
Definition initial : AppState :=
  {| transcriptMessages := []; ragSources := JArr []; isStreaming := false |}.

Definition handleTranscript (msg : TranscriptMessage) (st : AppState) : AppState :=
  {| transcriptMessages := transcriptMessages st ++ [msg];
     ragSources := ragSources st;
     isStreaming := false |}.

(** The updater [handleAgentStream] passes to [setTranscriptMessages]: from
    [isStreamingRef.current] and [prev] to the new value of the ref and the
    new list. *)
Definition agentStreamUpdater (fullText : string) (isStreamingRef : bool)
    (prev : list TranscriptMessage) : bool * list TranscriptMessage :=
  if negb isStreamingRef then
    (true, prev ++ [ {| role := agent; text := JStr fullText |} ])
  else
    let updated := prev in
    let last : Z := (Z.of_nat (length updated) - 1)%Z in
    if (0 <=? last)%Z then
      match updated !! Z.to_nat last with
      | Some m =>
          if Role_eqb (role m) agent then
            (isStreamingRef,
             <[Z.to_nat last := {| role := role m; text := JStr fullText |}]> updated)
          else (isStreamingRef, updated)
      | None => (isStreamingRef, updated)
      end
    else (isStreamingRef, updated).

(** When React runs a function passed to [setTranscriptMessages]: inside
    the call, which it does when the component has no update pending, or at
    the next render, after the handler that queued it has returned. *)
Inductive UpdaterRun : Type := AtCall | AtRender.

(** The value of [isStreamingRef.current] the updater of [handleAgentStream]
    reads: the one at the call, or the one left by
    [if (isFinal) isStreamingRef.current = false] when the updater runs after
    it. *)
Definition refReadByUpdater (run : UpdaterRun) (isFinal : bool) (st : AppState)
  : bool :=
  match run with
  | AtCall => isStreaming st
  | AtRender => if isFinal then false else isStreaming st
  end.

(** [handleAgentStream], followed by the render that runs its updater if the
    call did not: with [AtCall] the updater runs, then the [isFinal] write;
    with [AtRender] the [isFinal] write comes first and the updater, reading
    and writing the ref, after it. *)
Definition handleAgentStream (run : UpdaterRun) (fullText : string)
    (isFinal : bool) (st : AppState) : AppState :=
  match run with
  | AtCall =>
      let '(ref1, msgs) :=
        agentStreamUpdater fullText (isStreaming st) (transcriptMessages st) in
      {| transcriptMessages := msgs;
         ragSources := ragSources st;
         isStreaming := if isFinal then false else ref1 |}
  | AtRender =>
      let ref0 := if isFinal then false else isStreaming st in
      let '(ref1, msgs) :=
        agentStreamUpdater fullText ref0 (transcriptMessages st) in
      {| transcriptMessages := msgs;
         ragSources := ragSources st;
         isStreaming := ref1 |}
  end.

Definition handleRagSources (sources : jsval) (st : AppState) : AppState :=
  {| transcriptMessages := transcriptMessages st;
     ragSources := sources;
     isStreaming := isStreaming st |}.

(** [<VoiceRoom onTranscript={handleTranscript}
     onAgentStream={handleAgentStream} onRagSources={handleRagSources} />]:
    one call and the render after it.  The updater of [handleTranscript]
    reads no ref and [handleRagSources] sets a value, so [run] bears on
    [onAgentStream] alone. *)
Definition dispatch (run : UpdaterRun) (c : Callback) (st : AppState) : AppState :=
  match c with
  | OnTranscript msg => handleTranscript msg st
  | OnAgentStream fullText isFinal => handleAgentStream run fullText isFinal st
  | OnRagSources sources => handleRagSources sources st
  end.

(** Calls that are each rendered before the next one is made, every call
    with the way its updater runs. *)
Definition deliverEach (calls : list (UpdaterRun * Callback)) (st : AppState)
  : AppState :=
  foldl (fun s rc => dispatch (fst rc) (snd rc) s) st calls.

(** The same with one way for all the calls. *)
Definition deliver (run : UpdaterRun) (calls : list Callback) (st : AppState)
  : AppState :=
  foldl (fun s c => dispatch run c s) st calls.

(** *** Calls that are not rendered one by one

    Several handlers can return before React renders.  The updaters they
    passed to [setTranscriptMessages] are then queued and run in order at the
    render, each on the list the one before it returned and on the ref as the
    handlers and updaters before it left it. *)

Inductive Updater : Type :=
| AppendMessage (msg : TranscriptMessage)
| StreamText (fullText : string).

Definition runUpdater (u : Updater) (st : AppState) : AppState :=
  match u with
  | AppendMessage msg =>
      {| transcriptMessages := transcriptMessages st ++ [msg];
         ragSources := ragSources st;
         isStreaming := isStreaming st |}
  | StreamText fullText =>
      let '(ref1, msgs) :=
        agentStreamUpdater fullText (isStreaming st) (transcriptMessages st) in
      {| transcriptMessages := msgs;
         ragSources := ragSources st;
         isStreaming := ref1 |}
  end.

Definition set_isStreaming (b : bool) (st : AppState) : AppState :=
  {| transcriptMessages := transcriptMessages st;
     ragSources := ragSources st;
     isStreaming := b |}.

(** The state as rendered last, with the ref as it is now, and the updaters
    queued since. *)
Record Pending : Type := mkPending { current : AppState; queue : list Updater }.

Inductive Event : Type :=
| Called (run : UpdaterRun) (c : Callback)
| Rendered.

(** One handler call.  The updater runs inside the call only if [run] says
    so and nothing is queued; otherwise it is queued, and only the writes of
    the handler to the ref take place. *)
Definition called (run : UpdaterRun) (c : Callback) (p : Pending) : Pending :=
  match run, queue p with
  | AtCall, [] => {| current := dispatch AtCall c (current p); queue := [] |}
  | _, _ =>
      match c with
      | OnTranscript msg =>
          {| current := set_isStreaming false (current p);
             queue := queue p ++ [AppendMessage msg] |}
      | OnAgentStream fullText isFinal =>
          {| current := if isFinal then set_isStreaming false (current p)
                        else current p;
             queue := queue p ++ [StreamText fullText] |}
      | OnRagSources sources =>
          {| current := handleRagSources sources (current p); queue := queue p |}
      end
  end.

Definition rendered (p : Pending) : Pending :=
  {| current := foldl (fun st u => runUpdater u st) (current p) (queue p);
     queue := [] |}.

Definition step (p : Pending) (e : Event) : Pending :=
  match e with
  | Called run c => called run c p
  | Rendered => rendered p
  end.

Definition exec (events : list Event) (p : Pending) : Pending :=
  foldl step p events.

End App.

(** ** [api/client.ts]: the backend API client *)

Module Client.

Definition API_URL : string := "http://localhost:8000".

Record File : Type := mkFile { file_name : string; file_content : string }.

(** The [body] of a request: none, [JSON.stringify(v)], or a [FormData]
    holding one file under [file]. *)
Inductive Body : Type :=
| NoBody
| JsonBody (v : jsval)
| FormData (file : File).

Record Request : Type := mkRequest {
  url : string;
  method : string;
  headers : list (string * string);
  body : Body
}.

(** What the client reads of a [Response]: [res.ok] and the completion of
    [res.json()], which rejects when the body is not JSON. *)
Record Response : Type := mkResponse { ok : bool; json : Completion jsval }.

Definition json_headers : list (string * string) :=
  [("Content-Type", "application/json")].

Section WithFetch.

(** [fetch]: the completion of awaiting it is a response, or a rejection
    when no response arrived. *)
Variable fetch : Request -> Completion Response.

Definition getToken (roomName participantName : option string)
  : Completion jsval :=
  let roomName := default "voice-agent-room" roomName in
  let participantName := default "user" participantName in
  res ← fetch {| url := API_URL +:+ "/api/token"; method := "POST";
                 headers := json_headers;
                 body := JsonBody (JObj [("room_name", JStr roomName);
                                         ("participant_name", JStr participantName)]) |};
  if negb (ok res) then Throw (ErrorOf (JStr "Failed to get token"))
  else json res.

Definition uploadDocument (file : File) : Completion jsval :=
  res ← fetch {| url := API_URL +:+ "/api/upload"; method := "POST";
                 headers := []; body := FormData file |};
  if negb (ok res) then
    let err := try_catch (json res)
                 (fun _ => JObj [("detail", JStr "Upload failed")]) in
    detail ← getProp err "detail";
    Throw (ErrorOf (or_else detail (JStr "Upload failed")))
  else json res.

Definition listDocuments : Completion jsval :=
  res ← fetch {| url := API_URL +:+ "/api/documents"; method := "GET";
                 headers := []; body := NoBody |};
  if negb (ok res) then Throw (ErrorOf (JStr "Failed to list documents"))
  else
    data ← json res;
    getProp data "documents".

Definition deleteDocument (docId : string) : Completion jsval :=
  res ← fetch {| url := API_URL +:+ "/api/documents/" +:+ docId;
                 method := "DELETE"; headers := []; body := NoBody |};
  if negb (ok res) then Throw (ErrorOf (JStr "Failed to delete document"))
  else Return JUndefined.

Definition getPrompt : Completion jsval :=
  res ← fetch {| url := API_URL +:+ "/api/prompt"; method := "GET";
                 headers := []; body := NoBody |};
  if negb (ok res) then Throw (ErrorOf (JStr "Failed to get prompt"))
  else
    data ← json res;
    getProp data "prompt".

Definition updatePrompt (prompt : string) : Completion jsval :=
  res ← fetch {| url := API_URL +:+ "/api/prompt"; method := "PUT";
                 headers := json_headers;
                 body := JsonBody (JObj [("prompt", JStr prompt)]) |};
  if negb (ok res) then Throw (ErrorOf (JStr "Failed to update prompt"))
  else Return JUndefined.

Definition getAgentStatus : Completion jsval :=
  res ← fetch {| url := API_URL +:+ "/api/agent/status"; method := "GET";
                 headers := []; body := NoBody |};
  if negb (ok res) then Throw (ErrorOf (JStr "Failed to get agent status"))
  else json res.

Definition startAgent (mode : option string) : Completion jsval :=
  let mode := default "dev" mode in
  res ← fetch {| url := API_URL +:+ "/api/agent/start"; method := "POST";
                 headers := json_headers;
                 body := JsonBody (JObj [("mode", JStr mode)]) |};
  if negb (ok res) then Throw (ErrorOf (JStr "Failed to start agent"))
  else json res.

Definition stopAgent : Completion jsval :=
  res ← fetch {| url := API_URL +:+ "/api/agent/stop"; method := "POST";
                 headers := []; body := NoBody |};
  if negb (ok res) then Throw (ErrorOf (JStr "Failed to stop agent"))
  else Return JUndefined.

(** The nine exported functions with their arguments, to state a
    property of all of them at once. *)
Inductive Api : Type :=
| GetToken (roomName participantName : option string)
| UploadDocument (file : File)
| ListDocuments
| DeleteDocument (docId : string)
| GetPrompt
| UpdatePrompt (prompt : string)
| GetAgentStatus
| StartAgent (mode : option string)
| StopAgent.

Definition call (a : Api) : Completion jsval :=
  match a with
  | GetToken roomName participantName => getToken roomName participantName
  | UploadDocument file => uploadDocument file
  | ListDocuments => listDocuments
  | DeleteDocument docId => deleteDocument docId
  | GetPrompt => getPrompt
  | UpdatePrompt prompt => updatePrompt prompt
  | GetAgentStatus => getAgentStatus
  | StartAgent mode => startAgent mode
  | StopAgent => stopAgent
  end.

End WithFetch.

(** The request each function passes to [fetch]. *)
Definition requestOf (a : Api) : Request :=
  match a with
  | GetToken roomName participantName =>
      {| url := API_URL +:+ "/api/token"; method := "POST";
         headers := json_headers;
         body := JsonBody (JObj [("room_name", JStr (default "voice-agent-room" roomName));
                                 ("participant_name", JStr (default "user" participantName))]) |}
  | UploadDocument file =>
      {| url := API_URL +:+ "/api/upload"; method := "POST";
         headers := []; body := FormData file |}
  | ListDocuments =>
      {| url := API_URL +:+ "/api/documents"; method := "GET";
         headers := []; body := NoBody |}
  | DeleteDocument docId =>
      {| url := API_URL +:+ "/api/documents/" +:+ docId;
         method := "DELETE"; headers := []; body := NoBody |}
  | GetPrompt =>
      {| url := API_URL +:+ "/api/prompt"; method := "GET";
         headers := []; body := NoBody |}
  | UpdatePrompt prompt =>
      {| url := API_URL +:+ "/api/prompt"; method := "PUT";
         headers := json_headers;
         body := JsonBody (JObj [("prompt", JStr prompt)]) |}
  | GetAgentStatus =>
      {| url := API_URL +:+ "/api/agent/status"; method := "GET";
         headers := []; body := NoBody |}
  | StartAgent mode =>
      {| url := API_URL +:+ "/api/agent/start"; method := "POST";
         headers := json_headers;
         body := JsonBody (JObj [("mode", JStr (default "dev" mode))]) |}
  | StopAgent =>
      {| url := API_URL +:+ "/api/agent/stop"; method := "POST";
         headers := []; body := NoBody |}
  end.

(** What each function does with an ok response: the three [void]
    functions return at once, four return [res.json()], and two read a
    field of the parsed body. *)
Definition onOk (a : Api) (res : Response) : Completion jsval :=
  match a with
  | DeleteDocument _ | UpdatePrompt _ | StopAgent => Return JUndefined
  | GetToken _ _ | UploadDocument _ | GetAgentStatus | StartAgent _ => json res
  | ListDocuments => data ← json res; getProp data "documents"
  | GetPrompt => data ← json res; getProp data "prompt"
  end.

End Client.

(** ** The session registry *)

Module SessionRegistry.

(** Modelled from the spec: the lifecycle state of a session as far as the
    session lock sees it, [Active] from its connection until the transition
    to [Disconnected] that releases the lock. *)
Inductive Lifecycle : Type := Active | Disconnected.

(** Modelled from the spec: the [Session] record with its session id,
    lifecycle state, current turn id and persona text.  The backend that
    creates sessions ([api_server.py], [voice_agent/]) is not among the
    sources read here. *)
Record Session : Type := mkSession {
  session_id : nat;
  lifecycle : Lifecycle;
  current_turn : nat;
  persona : string
}.

Definition is_active (s : Session) : bool :=
  match lifecycle s with
  | Active => true
  | Disconnected => false
  end.

Inductive ConnectError : Type := SessionConflict.

(** Modelled from the spec: the process-wide registry of every session
    created so far, and the acquire-on-connect operation that creates a
    new [Active] session unless one is [Active] already, in which case it
    fails with the session-conflict condition. *)
Definition connect (persona : string) (reg : list Session)
  : list Session * (ConnectError + nat) :=
  if existsb is_active reg then (reg, inl SessionConflict)
  else
    let sid := length reg in
    (reg ++ [ {| session_id := sid; lifecycle := Active;
                 current_turn := 0; persona := persona |} ],
     inr sid).

(** Modelled from the spec: release-on-disconnect, the transition of the
    session [sid] to [Disconnected]. *)
Definition disconnect (sid : nat) (reg : list Session) : list Session :=
  map (fun s =>
         if session_id s =? sid then
           {| session_id := session_id s; lifecycle := Disconnected;
              current_turn := current_turn s; persona := persona s |}
         else s) reg.

Inductive Op : Type :=
| Connect (persona : string)
| Disconnect (sid : nat).

Definition step (reg : list Session) (op : Op) : list Session :=
  match op with
  | Connect persona => fst (connect persona reg)
  | Disconnect sid => disconnect sid reg
  end.

(** The operations of the modelled registry, and the registry after a
    sequence of them on a fresh process. *)
Definition run (ops : list Op) : list Session := foldl step [] ops.

Definition active_count (reg : list Session) : nat :=
  length (List.filter is_active reg).

End SessionRegistry.

(** ** The two components together *)

Module System.
Import VoiceRoom App.

Record SystemState : Type := mkSystem { call : CallState; app : AppState }.

Definition initial : SystemState :=
  {| call := VoiceRoom.initial; app := App.initial |}.

(** A new value of [agentTranscriptions]: the effect runs and its
    [onAgentStream] call, if it makes one, reaches [App], whose updater runs
    as [run] says. *)
Definition onAgentTranscriptions (run : UpdaterRun) (segs : list Segment)
    (s : SystemState) : SystemState :=
  let '(c, calls) := agentTranscriptionsEffect (call s) segs in
  {| call := c; app := deliver run calls (app s) |}.

(** A [RoomEvent.DataReceived] event.  [handleData] calls [onTranscript] and
    [onRagSources] only, on which the way the updater runs does not bear
    (see [deliver_data_any_run]). *)
Definition onDataReceived (parsed : Completion jsval) (s : SystemState)
  : SystemState :=
  {| call := call s; app := deliver AtCall (handleData (call s) parsed) (app s) |}.

End System.

(** ** The components that call the backend *)

(** What a component shows of a caught error: [err.message].  For
    [new Error(s)] with a string [s] it is [s]; for [new Error(v)] with
    another value it is the string conversion of [v], and for a built-in
    error it is the text the engine gave it; these two are kept as they
    are, not spelled out. *)
Inductive Shown : Type :=
| Text (s : string)
| StringOf (v : jsval)
| EngineText (e : JsError).

(** [err instanceof Error ? err.message : fallback]: every value thrown in
    this program is an [Error], so the fallback is never taken. *)
Definition shownMessage (e : JsError) : Shown :=
  match e with
  | ErrorOf (JStr s) => Text s
  | ErrorOf v => StringOf v
  | TypeError | SyntaxError => EngineText e
  end.

Module Backend.
Import Client.

Section WithServer.
Context {S : Type}.

(** The backend as the client meets it: it completes a request and is, after
    it, in a new state. *)
Variable server : Request → S → Completion Response * S.

(** The state of the backend together with the requests sent so far, oldest
    first. *)
Record World : Type := mkWorld { backend : S; sent : list Request }.

(** One call of a client function: it awaits [fetch] once, on [requestOf a]
    (see [call_fetches] below), so the backend moves by that one request. *)
Definition callApi (a : Api) (w : World) : Completion jsval * World :=
  (Client.call (fun r => fst (server r (backend w))) a,
   {| backend := snd (server (requestOf a) (backend w));
      sent := sent w ++ [requestOf a] |}).

End WithServer.
End Backend.

(** ** [DocUpload.tsx] *)

Module DocUpload.
Import Client Backend.

(** The state of the component, and the [value] of the file input behind
    [fileInputRef]. *)
Record DocState : Type := mkDoc {
  documents : jsval;
  uploading : bool;
  dragOver : bool;
  error : option Shown;
  fileInputValue : string
}.

Definition set_documents (v : jsval) (st : DocState) : DocState :=
  {| documents := v; uploading := uploading st; dragOver := dragOver st;
     error := error st; fileInputValue := fileInputValue st |}.

Definition set_uploading (b : bool) (st : DocState) : DocState :=
  {| documents := documents st; uploading := b; dragOver := dragOver st;
     error := error st; fileInputValue := fileInputValue st |}.

Definition set_error (e : option Shown) (st : DocState) : DocState :=
  {| documents := documents st; uploading := uploading st; dragOver := dragOver st;
     error := e; fileInputValue := fileInputValue st |}.

Definition set_fileInputValue (v : string) (st : DocState) : DocState :=
  {| documents := documents st; uploading := uploading st; dragOver := dragOver st;
     error := error st; fileInputValue := v |}.

Section WithServer.
Context {S : Type}.
Variable server : Request → S → Completion Response * S.

(** [loadDocuments]: [try { setDocuments(await listDocuments()) } catch {}] *)
Definition loadDocuments (st : DocState) (w : World)
  : DocState * World (S := S) :=
  let '(r, w1) := callApi server ListDocuments w in
  match r with
  | Return docs => (set_documents docs st, w1)
  | Throw _ => (st, w1)
  end.

(** [for (const file of Array.from(files)) { await uploadDocument(file); }] *)
Fixpoint uploadEach (files : list File) (w : World)
  : Completion unit * World (S := S) :=
  match files with
  | [] => (Return tt, w)
  | file :: rest =>
      let '(r, w1) := callApi server (UploadDocument file) w in
      match r with
      | Return _ => uploadEach rest w1
      | Throw e => (Throw e, w1)
      end
  end.

(** [handleUpload(files)], with [files] a [FileList] or [null]; the file
    input is mounted. *)
Definition handleUpload (files : option (list File)) (st : DocState) (w : World)
  : DocState * World (S := S) :=
  match files with
  | None | Some [] => (st, w)
  | Some files =>
      let st1 := set_error None (set_uploading true st) in
      let '(r, w1) := uploadEach files w in
      let '(st2, w2) :=
        match r with
        | Return _ => loadDocuments st1 w1
        | Throw err => (set_error (Some (shownMessage err)) st1, w1)
        end in
      (set_fileInputValue "" (set_uploading false st2), w2)
  end.

(** [handleDelete(docId)] *)
Definition handleDelete (docId : string) (st : DocState) (w : World)
  : DocState * World (S := S) :=
  let '(r, w1) := callApi server (DeleteDocument docId) w in
  match r with
  | Return _ => loadDocuments st w1
  | Throw _ => (set_error (Some (Text "Failed to delete")) st, w1)
  end.

End WithServer.
End DocUpload.

(** ** [VoiceRoom.tsx]: the [VoiceRoom] component *)

Module Room.
Import Client Backend.

Record RoomState : Type := mkRoom {
  tokenData : jsval;
  isConnecting : bool;
  error : option Shown
}.

(** [useState(null)], [useState(false)], [useState(null)] *)
Definition initial : RoomState :=
  {| tokenData := JNull; isConnecting := false; error := None |}.

Section WithServer.
Context {S : Type}.
Variable server : Request → S → Completion Response * S.

(** [connect] *)
Definition connect (st : RoomState) (w : World) : RoomState * World (S := S) :=
  let st1 := {| tokenData := tokenData st; isConnecting := true; error := None |} in
  let '(r, w1) := callApi server (GetToken None None) w in
  let st2 :=
    match r with
    | Return data =>
        {| tokenData := data; isConnecting := isConnecting st1; error := error st1 |}
    | Throw err =>
        {| tokenData := tokenData st1; isConnecting := isConnecting st1;
           error := Some (shownMessage err) |}
    end in
  ({| tokenData := tokenData st2; isConnecting := false; error := error st2 |}, w1).

End WithServer.

(** [disconnect] *)
Definition disconnect (st : RoomState) : RoomState :=
  {| tokenData := JNull; isConnecting := isConnecting st; error := error st |}.

(** Which of the two returns of the component renders: the room, when
    [!tokenData] is false. *)
Definition inCall (st : RoomState) : bool := truthy (tokenData st).

End Room.

(** ** Vocabulary of the properties *)

Import VoiceRoom.

Definition seg (t : string) (f : bool) : Segment :=
  {| seg_text := t; final := f |}.

(** The segments a run of the effect looks at: those at index
    [committedIndex] and above. *)
Definition uncommitted (st : CallState) (segs : list Segment) : list Segment :=
  drop (committedIndex st) segs.

(** A value of [agentTranscriptions] that leaves the turn open: it has
    uncommitted segments and one of them is not final. *)
Definition open_snapshot (st : CallState) (segs : list Segment) : Prop :=
  uncommitted st segs ≠ [] ∧ allFinal (uncommitted st segs) = false.

(** A value that closes the turn: it has uncommitted segments and all of
    them are final. *)
Definition closing_snapshot (st : CallState) (segs : list Segment) : Prop :=
  uncommitted st segs ≠ [] ∧ allFinal (uncommitted st segs) = true.

(** The [onAgentStream] calls whose [isFinal] argument is [true]. *)
Definition isFinalUpdate (c : Callback) : bool :=
  match c with
  | OnAgentStream _ true => true
  | _ => false
  end.

Definition finalUpdates (calls : list Callback) : list Callback :=
  List.filter isFinalUpdate calls.

(** The side-channel event [{ "type": "transcript", "role": r, "text": t }]. *)
Definition transcriptEvent (r : string) (t : jsval) : jsval :=
  JObj [("type", JStr "transcript"); ("role", JStr r); ("text", t)].

(** The closed tagged union of the specification: what a data-channel
    payload is, judged by its [type] field alone. *)
Inductive PayloadKind : Type := TranscriptPayload | RagSourcesPayload | IgnoredPayload.

Definition payloadKind (parsed : Completion jsval) : PayloadKind :=
  match parsed with
  | Throw _ => IgnoredPayload
  | Return msg =>
      match getProp msg "type" with
      | Return (JStr ty) =>
          if String.eqb ty "transcript" then TranscriptPayload
          else if String.eqb ty "rag_sources" then RagSourcesPayload
          else IgnoredPayload
      | _ => IgnoredPayload
      end
  end.

(** A parsed payload that is a [transcript] event of role [r]. *)
Definition isTranscriptOf (msg : jsval) (r : string) : Prop :=
  getProp msg "type" = Return (JStr "transcript") ∧
  getProp msg "role" = Return (JStr r).

(** [msg.text] of a payload that is an object. *)
Definition textOf (msg : jsval) : jsval :=
  try_catch (getProp msg "text") (fun _ => JUndefined).

(** The side-channel event [{ "type": "rag_sources", "sources": v }]. *)
Definition ragSourcesEvent (v : jsval) : jsval :=
  JObj [("type", JStr "rag_sources"); ("sources", v)].

(** A sequence of [RoomEvent.DataReceived] events, oldest first. *)
Definition onDataSequence (events : list (Completion jsval))
    (s : System.SystemState) : System.SystemState :=
  foldl (fun s parsed => System.onDataReceived parsed s) s events.

(** The upload requests of a list of files, in its order. *)
Definition uploadRequests (files : list Client.File) : list Client.Request :=
  map (fun f => Client.requestOf (Client.UploadDocument f)) files.

(** A backend for the examples: it counts the requests it has answered and
    refuses the one that comes third. *)
Definition third_request_refused (r : Client.Request) (n : nat)
  : Completion Client.Response * nat :=
  (Return {| Client.ok := negb (n =? 2);
             Client.json := Return (JObj [("detail", JStr "Too large")]) |},
   S n).

(** A streamed update and a caller transcript whose handlers both return
    before React renders. *)
Definition queued_stream_then_user_message : list App.Event :=
  [ App.Called App.AtRender (OnAgentStream "Our refund" false);
    App.Called App.AtRender (OnTranscript {| role := user; text := JStr "wait" |});
    App.Rendered ].

(** An agent message holding [t]. *)
Definition agentBubble (t : string) : TranscriptMessage :=
  {| role := agent; text := JStr t |}.

(** The backend and the requests sent after the uploads of [files], made
    one after the other, and whether each of these uploads returned. *)
Fixpoint afterUploads {S : Type}
    (server : Client.Request → S → Completion Client.Response * S)
    (files : list Client.File) (w : Backend.World (S := S)) : Backend.World (S := S) :=
  match files with
  | [] => w
  | file :: rest =>
      afterUploads server rest
        (snd (Backend.callApi server (Client.UploadDocument file) w))
  end.

Fixpoint uploadsReturn {S : Type}
    (server : Client.Request → S → Completion Client.Response * S)
    (files : list Client.File) (w : Backend.World (S := S)) : bool :=
  match files with
  | [] => true
  | file :: rest =>
      returns (fst (Backend.callApi server (Client.UploadDocument file) w)) &&
      uploadsReturn server rest
        (snd (Backend.callApi server (Client.UploadDocument file) w))
  end.

(** The values [agentTranscriptions] takes, oldest first, each followed by
    its run of the effect. *)
Definition onTranscriptionHistory (run : App.UpdaterRun)
    (history : list (list Segment)) (s : System.SystemState) : System.SystemState :=
  foldl (fun s segs => System.onAgentTranscriptions run segs s) s history.

(** * Properties *)

(** ** Sample runs *)

Example effect_growing_turn :
  runEffects VoiceRoom.initial
    [ [seg "Hello" false];
      [seg "Hello" true; seg "there" false];
      [seg "Hello" true; seg "there" true] ]
  = ({| committedIndex := 2; lastText := ""; streamingActive := true |},
     [OnAgentStream "Hello" false; OnAgentStream "Hello there" false]).
Proof. reflexivity. Qed.

Example effect_revised_turn :
  runEffects VoiceRoom.initial
    [ [seg "Helo" false]; [seg "Hello" true] ]
  = ({| committedIndex := 1; lastText := ""; streamingActive := true |},
     [OnAgentStream "Helo" false; OnAgentStream "Hello" true]).
Proof. reflexivity. Qed.

Example data_user_transcript :
  handleData VoiceRoom.initial (Return (transcriptEvent "user" (JStr "hi")))
  = [OnTranscript {| role := user; text := JStr "hi" |}].
Proof. reflexivity. Qed.

Example data_null_payload : handleData VoiceRoom.initial (Return JNull) = [].
Proof. reflexivity. Qed.

(** ** The [agentTranscriptions] effect, case by case *)

Section EffectCases.
Variable st : CallState.
Variable segs : list Segment.

Lemma effect_empty :
  agentTranscriptionsEffect st [] =
    ({| committedIndex := 0; lastText := "";
        streamingActive := streamingActive st |}, []).
Proof. reflexivity. Qed.

Lemma effect_exhausted :
  segs ≠ [] → uncommitted st segs = [] →
  agentTranscriptionsEffect st segs = (st, []).
Proof.
  unfold uncommitted, agentTranscriptionsEffect. intros Hne Hdrop.
  destruct segs as [|s rest]; [done|]. cbn [length Nat.eqb].
  by rewrite Hdrop.
Qed.

Lemma effect_open :
  open_snapshot st segs →
  agentTranscriptionsEffect st segs =
    if String.eqb (joinText (uncommitted st segs)) (lastText st)
    then (st, [])
    else ({| committedIndex := committedIndex st;
             lastText := joinText (uncommitted st segs);
             streamingActive := true |},
          [OnAgentStream (joinText (uncommitted st segs)) false]).
Proof.
  unfold open_snapshot, uncommitted, agentTranscriptionsEffect.
  intros [Hne Hfin].
  destruct segs as [|s rest]; [by destruct (committedIndex st)|].
  cbn [length Nat.eqb].
  destruct (drop (committedIndex st) (s :: rest)) as [|c cur] eqn:Hcur; [done|].
  cbn [length Nat.eqb]. rewrite Hfin.
  by destruct (String.eqb _ _).
Qed.

Lemma effect_closing :
  closing_snapshot st segs →
  agentTranscriptionsEffect st segs =
    if String.eqb (joinText (uncommitted st segs)) (lastText st)
    then ({| committedIndex := length segs; lastText := "";
             streamingActive := streamingActive st |}, [])
    else ({| committedIndex := length segs; lastText := "";
             streamingActive := true |},
          [OnAgentStream (joinText (uncommitted st segs)) true]).
Proof.
  unfold closing_snapshot, uncommitted, agentTranscriptionsEffect.
  intros [Hne Hfin].
  destruct segs as [|s rest]; [by destruct (committedIndex st)|].
  cbn [length Nat.eqb].
  destruct (drop (committedIndex st) (s :: rest)) as [|c cur] eqn:Hcur; [done|].
  cbn [length Nat.eqb]. rewrite Hfin.
  by destruct (String.eqb _ _).
Qed.

(** Every value of [agentTranscriptions] is of one of the four kinds. *)
Lemma snapshot_cases :
  segs = [] ∨ (segs ≠ [] ∧ uncommitted st segs = []) ∨
  open_snapshot st segs ∨ closing_snapshot st segs.
Proof.
  unfold open_snapshot, closing_snapshot.
  destruct segs as [|s rest] eqn:E; [by left|]. right.
  destruct (uncommitted st (s :: rest)) as [|c cur] eqn:Hcur; [by left|].
  right. destruct (allFinal (c :: cur)); [right|left]; done.
Qed.

End EffectCases.

(** ** The reconciler: single runs *)

(** [C7] An empty [agentTranscriptions] resets the cursor to zero and clears
    the last emitted text; the run calls [onAgentStream] not at all, so
    nothing is streamed and no message reaches the transcript. *)
Theorem empty_list_resets (st : CallState) (s : System.SystemState)
    (run : App.UpdaterRun) :
  committedIndex (fst (agentTranscriptionsEffect st [])) = 0 ∧
  lastText (fst (agentTranscriptionsEffect st [])) = "" ∧
  snd (agentTranscriptionsEffect st []) = [] ∧
  System.app (System.onAgentTranscriptions run [] s) = System.app s.
Proof. by rewrite /System.onAgentTranscriptions !effect_empty. Qed.

Lemma uncommitted_all_committed (st : CallState) (segs : list Segment) :
  committedIndex st = length segs → uncommitted st segs = [].
Proof. intros E. rewrite /uncommitted E. apply drop_all. Qed.

(** What a run calls: nothing, or [onAgentStream] once, with the joined text
    of the uncommitted segments, their finality, and a text that is not the
    last emitted one. *)
Lemma effect_calls (st : CallState) (segs : list Segment) :
  snd (agentTranscriptionsEffect st segs) = [] ∨
  (snd (agentTranscriptionsEffect st segs) =
     [OnAgentStream (joinText (uncommitted st segs))
                    (allFinal (uncommitted st segs))] ∧
   uncommitted st segs ≠ [] ∧
   joinText (uncommitted st segs) ≠ lastText st).
Proof.
  destruct (snapshot_cases st segs) as [->|[[Hne Hnil]|[Hopen|Hclosing]]].
  - by left.
  - left. by rewrite effect_exhausted.
  - rewrite (effect_open _ _ Hopen). destruct Hopen as [Hne Hfin].
    destruct (String.eqb_spec (joinText (uncommitted st segs)) (lastText st));
      [by left|right]. by rewrite Hfin.
  - rewrite (effect_closing _ _ Hclosing). destruct Hclosing as [Hne Hfin].
    destruct (String.eqb_spec (joinText (uncommitted st segs)) (lastText st));
      [by left|right]. by rewrite Hfin.
Qed.

(** [C3] A run calls [onAgentStream] only with a text that differs from the
    last emitted text, and running the effect again on the same list calls
    nothing and leaves every ref as it is: no second update, no second
    commit. *)
Theorem effect_replay_idempotent (st : CallState) (segs : list Segment) :
  Forall (fun c => ∃ f, c = OnAgentStream (joinText (uncommitted st segs)) f ∧
                        joinText (uncommitted st segs) ≠ lastText st)
         (snd (agentTranscriptionsEffect st segs)) ∧
  agentTranscriptionsEffect (fst (agentTranscriptionsEffect st segs)) segs =
    (fst (agentTranscriptionsEffect st segs), []).
Proof.
  split.
  - destruct (effect_calls st segs) as [->|(-> & _ & Hneq)]; [constructor|].
    repeat constructor. eauto.
  - destruct (snapshot_cases st segs) as [->|[[Hne Hnil]|[Hopen|Hclosing]]].
    + reflexivity.
    + rewrite effect_exhausted //=. by rewrite effect_exhausted.
    + rewrite (effect_open _ _ Hopen).
      destruct (String.eqb_spec (joinText (uncommitted st segs)) (lastText st))
        as [Heq|Hneq]; cbn [fst].
      * rewrite (effect_open _ _ Hopen). by rewrite Heq String.eqb_refl.
      * rewrite effect_open; [exact Hopen|].
        by rewrite /uncommitted /= String.eqb_refl.
    + rewrite (effect_closing _ _ Hclosing). destruct Hclosing as [Hne _].
      assert (segs ≠ []) by (intros ->; apply Hne, drop_nil).
      destruct (String.eqb _ _); cbn [fst];
        (apply effect_exhausted; [done|by apply uncommitted_all_committed]).
Qed.

(** ** The reconciler: sequences of runs *)

Lemma runEffects_cons (st : CallState) (segs : list Segment)
    (later : list (list Segment)) :
  runEffects st (segs :: later) =
    (fst (runEffects (fst (agentTranscriptionsEffect st segs)) later),
     snd (agentTranscriptionsEffect st segs) ++
     snd (runEffects (fst (agentTranscriptionsEffect st segs)) later)).
Proof.
  cbn [runEffects]. destruct (agentTranscriptionsEffect st segs) as [st1 calls1].
  cbn [fst snd]. by destruct (runEffects st1 later).
Qed.

Lemma runEffects_app (st : CallState) (h1 h2 : list (list Segment)) :
  runEffects st (h1 ++ h2) =
    (fst (runEffects (fst (runEffects st h1)) h2),
     snd (runEffects st h1) ++ snd (runEffects (fst (runEffects st h1)) h2)).
Proof.
  revert st. induction h1 as [|segs h1 IH]; intros st.
  - cbn. by destruct (runEffects st h2).
  - rewrite -app_comm_cons !runEffects_cons IH. cbn [fst snd].
    by rewrite app_assoc.
Qed.

Lemma uncommitted_nonempty (st : CallState) (segs : list Segment) :
  uncommitted st segs ≠ [] → committedIndex st < length segs.
Proof.
  rewrite /uncommitted. intros Hne.
  destruct (decide (committedIndex st < length segs)) as [|Hge]; [done|].
  exfalso. apply Hne, drop_ge. lia.
Qed.

(** While [agentTranscriptions] is not empty the cursor never moves back. *)
Lemma cursor_monotone (st : CallState) (segs : list Segment) :
  segs ≠ [] →
  committedIndex st ≤ committedIndex (fst (agentTranscriptionsEffect st segs)).
Proof.
  intros Hsegs.
  destruct (snapshot_cases st segs) as [->|[[Hne Hnil]|[Hopen|Hclosing]]].
  - done.
  - by rewrite effect_exhausted.
  - rewrite (effect_open _ _ Hopen). by destruct (String.eqb _ _).
  - rewrite (effect_closing _ _ Hclosing). destruct Hclosing as [Hne _].
    apply uncommitted_nonempty in Hne. destruct (String.eqb _ _); cbn; lia.
Qed.

(** Every call of a sequence of runs on non-empty lists carries the joined
    text of the segments from some index on, an index that is at least the
    cursor the sequence started with. *)
Lemma runEffects_above_cursor (history : list (list Segment)) (st : CallState) :
  Forall (fun segs => segs ≠ []) history →
  Forall (fun c => ∃ segs k, segs ∈ history ∧ committedIndex st ≤ k ∧
                     c = OnAgentStream (joinText (drop k segs))
                                       (allFinal (drop k segs)))
         (snd (runEffects st history)).
Proof.
  revert st. induction history as [|segs later IH]; intros st Hall.
  - constructor.
  - apply Forall_cons in Hall as [Hsegs Hlater].
    rewrite runEffects_cons. cbn [snd]. apply Forall_app. split.
    + destruct (effect_calls st segs) as [->|(-> & _ & _)]; [constructor|].
      repeat constructor. exists segs, (committedIndex st).
      split; [left|split; [lia|done]].
    + eapply Forall_impl; [apply IH, Hlater|].
      intros c (segs' & k & Hin & Hk & ->). exists segs', k.
      split; [by right|split; [|done]].
      pose proof (cursor_monotone st segs Hsegs). lia.
Qed.

(** [C4], as the code has it.  Whatever the refs and the list, the update a
    run streams carries the joined text of the segments at the cursor and
    above, and of no other segment.  Once a run has committed a turn, the
    cursor is at the end of the committed list and the last emitted text is
    cleared; every update of every later run, as long as
    [agentTranscriptions] has not been empty since, carries the joined text
    of the segments from an index [k] on with [k] at or above that cursor,
    hence of no segment committed by the earlier turn. *)
Theorem committed_segments_never_reemitted
    (st : CallState) (committed : list Segment)
    (history : list (list Segment))
    (st' : CallState) (segs' : list Segment) :
  closing_snapshot st committed →
  Forall (fun segs => segs ≠ []) history →
  Forall (fun c => c = OnAgentStream (joinText (drop (committedIndex st') segs'))
                                     (allFinal (drop (committedIndex st') segs')))
         (snd (agentTranscriptionsEffect st' segs')) ∧
  committedIndex (fst (agentTranscriptionsEffect st committed)) = length committed ∧
  lastText (fst (agentTranscriptionsEffect st committed)) = "" ∧
  Forall (fun c => ∃ segs k, segs ∈ history ∧ length committed ≤ k ∧
                     c = OnAgentStream (joinText (drop k segs))
                                       (allFinal (drop k segs)))
         (snd (runEffects (fst (agentTranscriptionsEffect st committed)) history)).
Proof.
  intros Hclosing Hall. split.
  { destruct (effect_calls st' segs') as [->|(-> & _ & _)]; by repeat constructor. }
  assert (committedIndex (fst (agentTranscriptionsEffect st committed))
          = length committed) as Hci.
  { rewrite (effect_closing _ _ Hclosing). by destruct (String.eqb _ _). }
  split; [done|]. split.
  { rewrite (effect_closing _ _ Hclosing). by destruct (String.eqb _ _). }
  rewrite -Hci. by apply runEffects_above_cursor.
Qed.

Lemma committed_segments_never_reemitted_witness :
  let st1 := fst (agentTranscriptionsEffect VoiceRoom.initial [seg "Hello" true]) in
  Forall (fun c => c = OnAgentStream
                         (joinText (drop (committedIndex st1)
                                         [seg "Hello" true; seg "Bye" false]))
                         (allFinal (drop (committedIndex st1)
                                         [seg "Hello" true; seg "Bye" false])))
         (snd (agentTranscriptionsEffect st1 [seg "Hello" true; seg "Bye" false])) ∧
  committedIndex st1 = 1 ∧ lastText st1 = "" ∧
  Forall (fun c => ∃ segs k,
            segs ∈ [[seg "Hello" true; seg "Bye" false]] ∧ 1 ≤ k ∧
            c = OnAgentStream (joinText (drop k segs)) (allFinal (drop k segs)))
         (snd (runEffects st1 [[seg "Hello" true; seg "Bye" false]])).
Proof.
  apply (committed_segments_never_reemitted VoiceRoom.initial
           [seg "Hello" true] [[seg "Hello" true; seg "Bye" false]]
           (fst (agentTranscriptionsEffect VoiceRoom.initial [seg "Hello" true]))
           [seg "Hello" true; seg "Bye" false]).
  - split; [discriminate|reflexivity].
  - repeat constructor; discriminate.
Defined.

(** [C4], as the specification has it, fails where the list is empty
    between two turns: the empty list puts the cursor back to zero, and the
    update of the next run carries the text of the segment at index 0, which
    the first run had committed.  No index at or above the old cursor gives
    that text. *)
Lemma committed_segment_reemitted_after_empty_list :
  runEffects VoiceRoom.initial
    [ [seg "Hello" true]; []; [seg "Hello" true; seg "Bye" false] ]
  = ({| committedIndex := 0; lastText := "Hello Bye"; streamingActive := true |},
     [OnAgentStream "Hello" true; OnAgentStream "Hello Bye" false]) ∧
  closing_snapshot VoiceRoom.initial [seg "Hello" true] ∧
  ¬ Forall (fun c => ∃ segs k,
              segs ∈ [[]; [seg "Hello" true; seg "Bye" false]] ∧
              length [seg "Hello" true] ≤ k ∧
              c = OnAgentStream (joinText (drop k segs)) (allFinal (drop k segs)))
           (snd (runEffects
                   (fst (agentTranscriptionsEffect VoiceRoom.initial [seg "Hello" true]))
                   [[]; [seg "Hello" true; seg "Bye" false]])).
Proof.
  split; [reflexivity|]. split; [split; [discriminate|reflexivity]|].
  intros Hall. apply Forall_cons in Hall as [(segs & k & Hin & Hk & Hc) _].
  apply elem_of_cons in Hin as [->|Hin].
  - rewrite drop_nil in Hc. vm_compute in Hc. discriminate Hc.
  - apply list_elem_of_singleton in Hin as ->. cbn [length] in Hk.
    destruct k as [|[|[|k]]]; [lia| | |]; vm_compute in Hc; discriminate Hc.
Qed.

(** ** The reconciler: one turn *)

(** A run on a list that leaves the turn open keeps the cursor, leaves the
    joined text as the last emitted one, and calls [onAgentStream] at most
    once, never with [isFinal] true. *)
Lemma open_run (st : CallState) (segs : list Segment) :
  open_snapshot st segs →
  committedIndex (fst (agentTranscriptionsEffect st segs)) = committedIndex st ∧
  lastText (fst (agentTranscriptionsEffect st segs)) = joinText (uncommitted st segs) ∧
  (snd (agentTranscriptionsEffect st segs) = [] ∧
     lastText st = joinText (uncommitted st segs) ∨
   snd (agentTranscriptionsEffect st segs) =
     [OnAgentStream (joinText (uncommitted st segs)) false]).
Proof.
  intros Hopen. rewrite (effect_open _ _ Hopen).
  destruct (String.eqb_spec (joinText (uncommitted st segs)) (lastText st));
    cbn [fst snd committedIndex lastText]; auto.
Qed.

(** Whether a list leaves the turn open or closes it depends on the cursor
    alone. *)
Lemma uncommitted_same_cursor (st st' : CallState) (segs : list Segment) :
  committedIndex st' = committedIndex st →
  uncommitted st' segs = uncommitted st segs.
Proof. rewrite /uncommitted. by intros ->. Qed.

(** The runs of a turn before its last: the cursor stays, the last emitted
    text is the joined text of the latest list, no call has [isFinal] true,
    and the latest call, when there is one, carries the last emitted text. *)
Lemma open_runs (pre : list (list Segment)) (st0 st : CallState) :
  committedIndex st = committedIndex st0 →
  Forall (open_snapshot st0) pre →
  committedIndex (fst (runEffects st pre)) = committedIndex st0 ∧
  lastText (fst (runEffects st pre)) =
    from_option (fun s => joinText (uncommitted st0 s)) (lastText st) (last pre) ∧
  finalUpdates (snd (runEffects st pre)) = [] ∧
  (snd (runEffects st pre) = [] ∧ lastText (fst (runEffects st pre)) = lastText st ∨
   ∃ b, last (snd (runEffects st pre)) =
          Some (OnAgentStream (lastText (fst (runEffects st pre))) b)).
Proof.
  revert st. induction pre as [|segs later IH]; intros st Hci Hall.
  - cbn. repeat (split; [done|]). by left.
  - apply Forall_cons in Hall as [Hopen Hlater].
    assert (open_snapshot st segs) as Hopen'.
    { by rewrite /open_snapshot (uncommitted_same_cursor st0 st). }
    destruct (open_run st segs Hopen') as (Hci1 & Hlt1 & Hcalls1).
    rewrite (uncommitted_same_cursor st0 st) // in Hlt1.
    rewrite (uncommitted_same_cursor st0 st) // in Hcalls1.
    set (st1 := fst (agentTranscriptionsEffect st segs)) in *.
    destruct (IH st1 ltac:(congruence) Hlater) as (Hci2 & Hlt2 & Hfin2 & Hlast2).
    rewrite runEffects_cons. fold st1. cbn [fst snd].
    split; [done|]. split; [|split].
    + rewrite Hlt2 last_cons. destruct (last later); [done|]. cbn. done.
    + rewrite /finalUpdates List.filter_app. fold (finalUpdates (snd (runEffects st1 later))).
      rewrite Hfin2. by destruct Hcalls1 as [[-> _]| ->].
    + destruct Hlast2 as [[Hnil2 Hsame]|[b Hb]].
      * rewrite Hnil2 app_nil_r Hsame Hlt1.
        destruct Hcalls1 as [[-> ->]| ->]; [by left|right]. by exists false.
      * right. exists b. rewrite last_app Hb. done.
Qed.

(** What the effect does over the runs of one turn (lists that leave the
    turn open, then one that closes it): the cursor stays where it was
    until the last run and is then moved to the end of the list, with the
    last emitted text cleared: one commit.  The calls with [isFinal] true
    are at most one: none when the joined text of the closing list is the
    text emitted last, and otherwise one, carrying that joined text.  The
    latest call of the turn, when there is one, carries that joined text. *)
Theorem turn_commits_once (st : CallState) (pre : list (list Segment))
    (closing : list Segment) :
  Forall (open_snapshot st) pre →
  closing_snapshot st closing →
  committedIndex (fst (runEffects st pre)) = committedIndex st ∧
  committedIndex (fst (runEffects st (pre ++ [closing]))) = length closing ∧
  lastText (fst (runEffects st (pre ++ [closing]))) = "" ∧
  lastText (fst (runEffects st pre)) =
    from_option (fun s => joinText (uncommitted st s)) (lastText st) (last pre) ∧
  finalUpdates (snd (runEffects st (pre ++ [closing]))) =
    (if String.eqb (joinText (uncommitted st closing))
                   (lastText (fst (runEffects st pre)))
     then []
     else [OnAgentStream (joinText (uncommitted st closing)) true]) ∧
  (snd (runEffects st (pre ++ [closing])) = [] ∨
   ∃ b, last (snd (runEffects st (pre ++ [closing]))) =
          Some (OnAgentStream (joinText (uncommitted st closing)) b)).
Proof.
  intros Hpre Hclosing.
  destruct (open_runs pre st st eq_refl Hpre) as (Hci & Hlt & Hfin & Hlast).
  set (mid := fst (runEffects st pre)) in *.
  assert (closing_snapshot mid closing) as Hclosing'.
  { by rewrite /closing_snapshot (uncommitted_same_cursor st mid). }
  rewrite runEffects_app. fold mid. cbn [fst snd runEffects].
  pose proof (effect_closing _ _ Hclosing') as Heff.
  rewrite (uncommitted_same_cursor st mid) // in Heff.
  destruct (agentTranscriptionsEffect mid closing) as [st' calls].
  cbn [fst snd]. rewrite app_nil_r.
  rewrite /finalUpdates List.filter_app. fold (finalUpdates (snd (runEffects st pre))).
  rewrite Hfin.
  destruct (String.eqb_spec (joinText (uncommitted st closing)) (lastText mid))
    as [Heq|Hneq]; injection Heff as -> ->; cbn; rewrite ?app_nil_r.
  - repeat (split; [done|]).
    destruct Hlast as [[-> _]|[b Hb]]; [by left|right].
    exists b. by rewrite Hb Heq.
  - repeat (split; [done|]). right. exists true. by rewrite last_snoc.
Qed.

Lemma turn_commits_once_witness :
  committedIndex (fst (runEffects VoiceRoom.initial [[seg "Helo" false]])) = 0 ∧
  committedIndex (fst (runEffects VoiceRoom.initial
                         ([[seg "Helo" false]] ++ [[seg "Hello" true]]))) = 1 ∧
  lastText (fst (runEffects VoiceRoom.initial
                   ([[seg "Helo" false]] ++ [[seg "Hello" true]]))) = "" ∧
  lastText (fst (runEffects VoiceRoom.initial [[seg "Helo" false]])) = "Helo" ∧
  finalUpdates (snd (runEffects VoiceRoom.initial
                       ([[seg "Helo" false]] ++ [[seg "Hello" true]]))) =
    [OnAgentStream "Hello" true] ∧
  (snd (runEffects VoiceRoom.initial
          ([[seg "Helo" false]] ++ [[seg "Hello" true]])) = [] ∨
   ∃ b, last (snd (runEffects VoiceRoom.initial
                     ([[seg "Helo" false]] ++ [[seg "Hello" true]]))) =
          Some (OnAgentStream "Hello" b)).
Proof.
  apply (turn_commits_once VoiceRoom.initial [[seg "Helo" false]] [seg "Hello" true]).
  - repeat constructor. discriminate.
  - split; [discriminate|reflexivity].
Defined.

(** [C1] The effect at the failing input: a segment that is finalized with
    the text it already had closes the turn, and commits it, without any
    call whose [isFinal] is true, where a turn closed with a changed text
    does make that call. *)
Lemma final_update_missing_when_text_unchanged :
  Forall (open_snapshot VoiceRoom.initial) [[seg "Hello" false]] ∧
  closing_snapshot VoiceRoom.initial [seg "Hello" true] ∧
  snd (runEffects VoiceRoom.initial [[seg "Hello" false]; [seg "Hello" true]])
    = [OnAgentStream "Hello" false] ∧
  finalUpdates
    (snd (runEffects VoiceRoom.initial [[seg "Hello" false]; [seg "Hello" true]]))
    ≠ [OnAgentStream (joinText (uncommitted VoiceRoom.initial [seg "Hello" true])) true].
Proof.
  split; [repeat constructor; discriminate|].
  split; [split; [discriminate|reflexivity]|].
  split; [reflexivity|discriminate].
Qed.

(** What the lost call costs.  [App] clears [isStreamingRef] on a call with
    [isFinal] true; without it the next response, streamed with no
    transcript message in between, is written over the bubble of the first
    one instead of opening a new bubble.  Neither call is final, so the way
    the updaters run makes no difference. *)
Lemma next_response_overwrites_bubble (run : App.UpdaterRun) :
  onTranscriptionHistory run
    [ [seg "Hello" false]; [seg "Hello" true];
      [seg "Hello" true; seg "Bye" false]; [seg "Hello" true; seg "Bye" true] ]
    System.initial =
    {| System.call :=
         {| committedIndex := 2; lastText := ""; streamingActive := true |};
       System.app :=
         {| App.transcriptMessages := [agentBubble "Bye"];
            App.ragSources := JArr [];
            App.isStreaming := true |} |}.
Proof. by destruct run. Qed.

(** ** The fallback transcript and [streamingActiveRef] *)

Lemma handleData_transcript (st : CallState) (msg : jsval) (r : string) :
  isTranscriptOf msg r →
  handleData st (Return msg) =
    if String.eqb r "user" then [OnTranscript {| role := user; text := textOf msg |}]
    else if String.eqb r "agent" && negb (streamingActive st)
         then [OnTranscript {| role := agent; text := textOf msg |}]
         else [].
Proof.
  intros [Hty Hrole]. rewrite /handleData /handleData_body /textOf.
  destruct msg; try discriminate Hty.
  cbn in *. injection Hty as ->. injection Hrole as ->. cbn.
  destruct (String.eqb r "user"); [done|].
  by destruct (String.eqb r "agent" && negb (streamingActive st)).
Qed.

(** No run of the effect writes [false] to [streamingActiveRef]. *)
Lemma streamingActive_kept (st : CallState) (segs : list Segment) :
  streamingActive st = true →
  streamingActive (fst (agentTranscriptionsEffect st segs)) = true.
Proof.
  intros Hsa.
  destruct (snapshot_cases st segs) as [->|[[Hne Hnil]|[Hopen|Hclosing]]].
  - done.
  - by rewrite effect_exhausted.
  - rewrite (effect_open _ _ Hopen). by destruct (String.eqb _ _).
  - rewrite (effect_closing _ _ Hclosing). by destruct (String.eqb _ _).
Qed.

(** A run that calls [onAgentStream] has set [streamingActiveRef]. *)
Lemma streamingActive_set (st : CallState) (segs : list Segment) :
  snd (agentTranscriptionsEffect st segs) ≠ [] →
  streamingActive (fst (agentTranscriptionsEffect st segs)) = true.
Proof.
  destruct (snapshot_cases st segs) as [->|[[Hne Hnil]|[Hopen|Hclosing]]].
  - done.
  - by rewrite effect_exhausted.
  - rewrite (effect_open _ _ Hopen). by destruct (String.eqb _ _).
  - rewrite (effect_closing _ _ Hclosing). by destruct (String.eqb _ _).
Qed.

Lemma runEffects_streamingActive_kept (history : list (list Segment))
    (st : CallState) :
  streamingActive st = true →
  streamingActive (fst (runEffects st history)) = true.
Proof.
  revert st. induction history as [|segs later IH]; intros st Hsa; [done|].
  rewrite runEffects_cons. cbn [fst]. by apply IH, streamingActive_kept.
Qed.

Lemma runEffects_streamingActive_set (history : list (list Segment))
    (st : CallState) :
  snd (runEffects st history) ≠ [] →
  streamingActive (fst (runEffects st history)) = true.
Proof.
  revert st. induction history as [|segs later IH]; intros st; [done|].
  rewrite runEffects_cons. cbn [fst snd]. intros Hcalls.
  destruct (decide (snd (agentTranscriptionsEffect st segs) = [])) as [Hnil|Hsome].
  - rewrite Hnil in Hcalls. by apply IH.
  - by apply runEffects_streamingActive_kept, streamingActive_set.
Qed.

(** [C2], as the code has it.  Once a run of the effect has streamed an
    update, an agent [transcript] event is dropped after any further runs
    of the effect, whatever turn they belong to: the transcript is left as it
    is.  A user [transcript] event is appended in every state. *)
Theorem fallback_suppressed_once_streaming
    (st st' : CallState) (h1 h2 : list (list Segment))
    (agentMsg userMsg : jsval) (a : App.AppState) (run : App.UpdaterRun) :
  isTranscriptOf agentMsg "agent" →
  isTranscriptOf userMsg "user" →
  snd (runEffects st h1) ≠ [] →
  handleData (fst (runEffects st (h1 ++ h2))) (Return agentMsg) = [] ∧
  App.deliver run (handleData (fst (runEffects st (h1 ++ h2))) (Return agentMsg)) a = a ∧
  handleData st' (Return userMsg) =
    [OnTranscript {| role := user; text := textOf userMsg |}] ∧
  App.transcriptMessages (App.deliver run (handleData st' (Return userMsg)) a) =
    App.transcriptMessages a ++ [ {| role := user; text := textOf userMsg |} ].
Proof.
  intros Hagent Huser Hstreamed.
  assert (handleData (fst (runEffects st (h1 ++ h2))) (Return agentMsg) = [])
    as Hdrop.
  { rewrite (handleData_transcript _ _ _ Hagent) runEffects_app. cbn [fst].
    rewrite runEffects_streamingActive_kept //.
    by apply runEffects_streamingActive_set. }
  rewrite Hdrop (handleData_transcript _ _ _ Huser). done.
Qed.

Lemma fallback_suppressed_once_streaming_witness :
  handleData (fst (runEffects VoiceRoom.initial
                     ([[seg "Hello" false]] ++ [[seg "Hello" true]; []])))
             (Return (transcriptEvent "agent" (JStr "Hello"))) = [] ∧
  App.deliver App.AtRender
              (handleData (fst (runEffects VoiceRoom.initial
                                  ([[seg "Hello" false]] ++ [[seg "Hello" true]; []])))
                          (Return (transcriptEvent "agent" (JStr "Hello"))))
              App.initial = App.initial ∧
  handleData VoiceRoom.initial (Return (transcriptEvent "user" (JStr "Hi"))) =
    [OnTranscript {| role := user;
                     text := textOf (transcriptEvent "user" (JStr "Hi")) |}] ∧
  App.transcriptMessages
    (App.deliver App.AtRender
       (handleData VoiceRoom.initial
                    (Return (transcriptEvent "user" (JStr "Hi")))) App.initial) =
    App.transcriptMessages App.initial ++
      [ {| role := user; text := textOf (transcriptEvent "user" (JStr "Hi")) |} ].
Proof.
  apply (fallback_suppressed_once_streaming VoiceRoom.initial VoiceRoom.initial
           [[seg "Hello" false]] [[seg "Hello" true]; []]
           (transcriptEvent "agent" (JStr "Hello"))
           (transcriptEvent "user" (JStr "Hi")) App.initial App.AtRender).
  - split; reflexivity.
  - split; reflexivity.
  - discriminate.
Defined.

(** The fallback is appended as long as no update was ever streamed. *)
Lemma fallback_delivered_before_streaming (st : CallState) (agentMsg : jsval) :
  isTranscriptOf agentMsg "agent" →
  streamingActive st = false →
  handleData st (Return agentMsg) =
    [OnTranscript {| role := agent; text := textOf agentMsg |}].
Proof.
  intros Hagent Hsa. by rewrite (handleData_transcript _ _ _ Hagent) Hsa.
Qed.

(** [C2], as the specification has it, fails in its last sentence: the
    suppression outlives the turn that streamed.  After the first turn was
    streamed and committed, the refs are those of a fresh turn but for
    [streamingActiveRef]; the second turn has streamed nothing, and its
    fallback is dropped all the same, where before any streaming it is
    appended. *)
Lemma suppression_outlives_the_turn :
  runEffects VoiceRoom.initial [[seg "Hello" true]] =
    ({| committedIndex := 1; lastText := ""; streamingActive := true |},
     [OnAgentStream "Hello" true]) ∧
  handleData (fst (runEffects VoiceRoom.initial [[seg "Hello" true]]))
             (Return (transcriptEvent "agent" (JStr "How can I help?"))) = [] ∧
  handleData VoiceRoom.initial
             (Return (transcriptEvent "agent" (JStr "How can I help?"))) =
    [OnTranscript {| role := agent; text := JStr "How can I help?" |}].
Proof. repeat split. Qed.

(** ** The data channel as a closed union *)

(** What [handleData] calls, by the kind of the payload. *)
Lemma handleData_by_kind (st : CallState) (parsed : Completion jsval) :
  match payloadKind parsed with
  | TranscriptPayload =>
      handleData st parsed = [] ∨ ∃ m, handleData st parsed = [OnTranscript m]
  | RagSourcesPayload => ∃ sources, handleData st parsed = [OnRagSources sources]
  | IgnoredPayload => handleData st parsed = []
  end.
Proof.
  rewrite /payloadKind /handleData /handleData_body.
  destruct parsed as [msg|e]; [|done].
  destruct msg; cbn; try done.
  destruct (lookup_field "type" fields) as [| | | |ty| |]; cbn; try done.
  destruct (String.eqb ty "transcript"); cbn.
  - destruct (strictEqStr (lookup_field "role" fields) "user"); cbn; [eauto|].
    destruct (strictEqStr (lookup_field "role" fields) "agent" &&
              negb (streamingActive st)); cbn; eauto.
  - destruct (String.eqb ty "rag_sources"); cbn; eauto.
Qed.

(** The calls of [handleData] are delivered alike whichever way updaters
    run: none of them is [onAgentStream]. *)
Lemma deliver_data_any_run (run : App.UpdaterRun) (st : CallState)
    (parsed : Completion jsval) (a : App.AppState) :
  App.deliver run (handleData st parsed) a =
    App.deliver App.AtCall (handleData st parsed) a.
Proof.
  pose proof (handleData_by_kind st parsed) as H.
  destruct (payloadKind parsed).
  - by destruct H as [->|[m ->]].
  - by destruct H as [sources ->].
  - by rewrite H.
Qed.

(** [C8] A payload is a [transcript] event, a [rag_sources] event, or
    neither.  One that is neither (its [type] is another value or is
    missing, or the payload is not JSON, or it is [null]) makes no call, so
    transcript, sources and refs stay as they are, and [handleData] returns
    normally even where the body of its [try] threw.  A [transcript] event
    leaves the sources as they are, a [rag_sources] event the transcript. *)
Theorem data_channel_closed_union (s : System.SystemState)
    (parsed : Completion jsval) :
  match payloadKind parsed with
  | TranscriptPayload =>
      App.ragSources (System.app (System.onDataReceived parsed s)) =
        App.ragSources (System.app s)
  | RagSourcesPayload =>
      App.transcriptMessages (System.app (System.onDataReceived parsed s)) =
        App.transcriptMessages (System.app s) ∧
      App.isStreaming (System.app (System.onDataReceived parsed s)) =
        App.isStreaming (System.app s)
  | IgnoredPayload =>
      handleData (System.call s) parsed = [] ∧
      System.onDataReceived parsed s = s
  end.
Proof.
  pose proof (handleData_by_kind (System.call s) parsed) as H.
  rewrite /System.onDataReceived.
  destruct (payloadKind parsed).
  - by destruct H as [->|[m ->]].
  - by destruct H as [sources ->].
  - rewrite H. split; [done|]. by destruct s.
Qed.

(** ** The transcript list *)

Lemma agentStreamUpdater_cases (fullText : string) (ref : bool)
    (prev : list TranscriptMessage) :
  (ref = false ∧
   App.agentStreamUpdater fullText ref prev =
     (true, prev ++ [ {| role := agent; text := JStr fullText |} ])) ∨
  (ref = true ∧
   ∃ init m, prev = init ++ [m] ∧ role m = agent ∧
     App.agentStreamUpdater fullText ref prev =
       (true, init ++ [ {| role := agent; text := JStr fullText |} ])) ∨
  (ref = true ∧ role <$> last prev ≠ Some agent ∧
   App.agentStreamUpdater fullText ref prev = (true, prev)).
Proof.
  rewrite /App.agentStreamUpdater. destruct ref; cbn [negb]; [right|by left].
  destruct (last prev) as [m|] eqn:Hlast.
  - apply last_Some in Hlast as [init ->].
    rewrite length_app. cbn [length].
    replace (Z.of_nat (length init + 1) - 1)%Z with (Z.of_nat (length init)) by lia.
    rewrite (proj2 (Z.leb_le _ _)); [lia|].
    rewrite Nat2Z.id list_lookup_middle //.
    destruct (role m) eqn:Hrole; cbn [Role_eqb].
    + right. cbn. rewrite Hrole. by repeat split.
    + left. split; [done|]. exists init, m. repeat split; [done|].
      replace (length init) with (length init + 0) at 1 by lia.
      by rewrite insert_app_r.
  - apply last_None in Hlast as ->. cbn. right. by repeat split.
Qed.

(** The list after [handleAgentStream], in the three cases of its updater,
    told apart by the ref the updater reads. *)
Lemma handleAgentStream_cases (run : App.UpdaterRun) (fullText : string)
    (isFinal : bool) (st : App.AppState) :
  (App.refReadByUpdater run isFinal st = false ∧
   App.transcriptMessages (App.handleAgentStream run fullText isFinal st) =
     App.transcriptMessages st ++ [ {| role := agent; text := JStr fullText |} ]) ∨
  (App.refReadByUpdater run isFinal st = true ∧
   ∃ init m, App.transcriptMessages st = init ++ [m] ∧ role m = agent ∧
     App.transcriptMessages (App.handleAgentStream run fullText isFinal st) =
       init ++ [ {| role := role m; text := JStr fullText |} ]) ∨
  (App.refReadByUpdater run isFinal st = true ∧
   role <$> last (App.transcriptMessages st) ≠ Some agent ∧
   App.transcriptMessages (App.handleAgentStream run fullText isFinal st) =
     App.transcriptMessages st).
Proof.
  rewrite /App.handleAgentStream /App.refReadByUpdater.
  destruct run.
  - destruct (agentStreamUpdater_cases fullText (App.isStreaming st)
                (App.transcriptMessages st))
      as [[Href ->]|[(Href & init & m & Hprev & Hrole & ->)|(Href & Hlast & ->)]];
      cbn [App.transcriptMessages].
    + by left.
    + right. left. split; [done|]. exists init, m. by rewrite Hrole.
    + right. right. done.
  - destruct (agentStreamUpdater_cases fullText
                (if isFinal then false else App.isStreaming st)
                (App.transcriptMessages st))
      as [[Href ->]|[(Href & init & m & Hprev & Hrole & ->)|(Href & Hlast & ->)]];
      cbn [App.transcriptMessages].
    + by left.
    + right. left. split; [done|]. exists init, m. by rewrite Hrole.
    + right. right. done.
Qed.



(** [C9], as amended.  With streaming marked active and a last message
    that is not the agent's (or no message at all), a run of the updater of
    [handleAgentStream] returns the list it was given.  So
    [handleAgentStream] leaves the list as it is, the streamed text put
    nowhere, when the update is not final or its updater runs inside the
    call: in both cases the updater finds the ref as the call found it. *)
Theorem stream_dropped_after_user_message (run : App.UpdaterRun)
    (fullText : string) (isFinal : bool) (st : App.AppState) :
  App.isStreaming st = true →
  role <$> last (App.transcriptMessages st) ≠ Some agent →
  run = App.AtCall ∨ isFinal = false →
  snd (App.agentStreamUpdater fullText true (App.transcriptMessages st)) =
    App.transcriptMessages st ∧
  App.transcriptMessages (App.handleAgentStream run fullText isFinal st) =
    App.transcriptMessages st.
Proof.
  intros Href Hlast Hrun. split.
  - destruct (agentStreamUpdater_cases fullText true (App.transcriptMessages st))
      as [[Hfalse _]|[(_ & init & m & Hprev & Hrole & _)|(_ & _ & ->)]].
    + discriminate.
    + exfalso. apply Hlast. by rewrite Hprev last_snoc /= Hrole.
    + done.
  - destruct (handleAgentStream_cases run fullText isFinal st)
      as [[Hfalse _]|[(_ & init & m & Hprev & Hrole & _)|(_ & _ & ->)]].
    + exfalso. revert Hfalse. rewrite /App.refReadByUpdater Href.
      by destruct Hrun as [-> | ->]; [|destruct run].
    + exfalso. apply Hlast. by rewrite Hprev last_snoc /= Hrole.
    + done.
Qed.

Lemma stream_dropped_after_user_message_witness :
  let st := App.current (App.exec queued_stream_then_user_message
                           {| App.current := App.initial; App.queue := [] |}) in
  snd (App.agentStreamUpdater "Our refund policy" true (App.transcriptMessages st)) =
    App.transcriptMessages st ∧
  App.transcriptMessages
    (App.handleAgentStream App.AtRender "Our refund policy" false st) =
    App.transcriptMessages st.
Proof.
  apply (stream_dropped_after_user_message App.AtRender "Our refund policy" false
           (App.current (App.exec queued_stream_then_user_message
                           {| App.current := App.initial; App.queue := [] |}))).
  - reflexivity.
  - discriminate.
  - right. reflexivity.
Defined.

(** [C9], as the claim has it, fails.  Its state is not met on the example
    it gives: a caller transcript rendered in the middle of a stream clears
    the ref, and the next update opens a new bubble.  It is met when a
    streamed update and a caller transcript are queued together: the render
    leaves the agent's bubble below the caller's message and streaming
    marked active.  There a final update whose updater runs at the render
    clears the ref before the updater reads it, and the updater, finding
    streaming not active, opens a third bubble where the claim has the list
    unchanged. *)
Lemma final_update_after_user_message_opens_bubble :
  App.deliverEach
    [ (App.AtCall, OnAgentStream "Our refund" false);
      (App.AtCall, OnTranscript {| role := user; text := JStr "wait" |});
      (App.AtCall, OnAgentStream "Our refund policy" false) ]
    App.initial =
    {| App.transcriptMessages :=
         [ agentBubble "Our refund";
           {| role := user; text := JStr "wait" |};
           agentBubble "Our refund policy" ];
       App.ragSources := JArr [];
       App.isStreaming := true |} ∧
  App.exec queued_stream_then_user_message
    {| App.current := App.initial; App.queue := [] |} =
    {| App.current :=
         {| App.transcriptMessages :=
              [ agentBubble "Our refund";
                {| role := user; text := JStr "wait" |} ];
            App.ragSources := JArr [];
            App.isStreaming := true |};
       App.queue := [] |} ∧
  App.transcriptMessages
    (App.current
       (App.exec (queued_stream_then_user_message ++
                  [App.Called App.AtRender (OnAgentStream "Our refund policy" true);
                   App.Rendered])
                 {| App.current := App.initial; App.queue := [] |})) =
    [ agentBubble "Our refund";
      {| role := user; text := JStr "wait" |};
      agentBubble "Our refund policy" ] ∧
  App.transcriptMessages
    (App.handleAgentStream App.AtRender "Our refund policy" true
       (App.current (App.exec queued_stream_then_user_message
                       {| App.current := App.initial; App.queue := [] |}))) ≠
    App.transcriptMessages
      (App.current (App.exec queued_stream_then_user_message
                      {| App.current := App.initial; App.queue := [] |})).
Proof. repeat split. discriminate. Qed.

(** One call and the render after it, in the terms of the queue. *)
Lemma exec_call_then_render (run : App.UpdaterRun) (c : Callback)
    (st : App.AppState) :
  App.exec [App.Called run c; App.Rendered]
    {| App.current := st; App.queue := [] |} =
    {| App.current := App.dispatch run c st; App.queue := [] |}.
Proof.
  destruct run, c as [msg|fullText isFinal|sources]; try reflexivity.
  by destruct isFinal.
Qed.

(** When every call is rendered before the next one is made, in whichever
    way its updater runs, a state with streaming marked active has the
    agent's message last: the state of [C9] needs calls queued together. *)
Lemma streaming_has_agent_last (calls : list (App.UpdaterRun * Callback))
    (a : App.AppState) :
  (App.isStreaming a = true → role <$> last (App.transcriptMessages a) = Some agent) →
  App.isStreaming (App.deliverEach calls a) = true →
  role <$> last (App.transcriptMessages (App.deliverEach calls a)) = Some agent.
Proof.
  revert a. induction calls as [|[run c] calls IH]; intros a Ha; [done|].
  cbn. apply IH. destruct c as [msg|fullText isFinal|sources]; cbn.
  - discriminate.
  - destruct (handleAgentStream_cases run fullText isFinal a)
      as [[Hfalse Hmsgs]|[(_ & init & m & Hprev & Hrole & Hmsgs)|(Htrue & Hlast & _)]].
    + intros _. by rewrite Hmsgs last_snoc.
    + intros _. by rewrite Hmsgs last_snoc /= Hrole.
    + intros _. exfalso. apply Hlast, Ha. revert Htrue.
      rewrite /App.refReadByUpdater. by destruct run, isFinal.
  - exact Ha.
Qed.

(** ** The API client *)

Section ClientProperties.
Import Client.
Variable fetch : Request → Completion Response.

(** Each function awaits [fetch] on its request and goes on with the
    response; a rejected [fetch] rejects the call. *)
Lemma call_fetches (a : Api) :
  call fetch a =
    res ← fetch (requestOf a);
    if negb (ok res) then
      match a with
      | UploadDocument _ =>
          detail ← getProp (try_catch (json res)
                              (fun _ => JObj [("detail", JStr "Upload failed")]))
                           "detail";
          Throw (ErrorOf (or_else detail (JStr "Upload failed")))
      | GetToken _ _ => Throw (ErrorOf (JStr "Failed to get token"))
      | ListDocuments => Throw (ErrorOf (JStr "Failed to list documents"))
      | DeleteDocument _ => Throw (ErrorOf (JStr "Failed to delete document"))
      | GetPrompt => Throw (ErrorOf (JStr "Failed to get prompt"))
      | UpdatePrompt _ => Throw (ErrorOf (JStr "Failed to update prompt"))
      | GetAgentStatus => Throw (ErrorOf (JStr "Failed to get agent status"))
      | StartAgent _ => Throw (ErrorOf (JStr "Failed to start agent"))
      | StopAgent => Throw (ErrorOf (JStr "Failed to stop agent"))
      end
    else onOk a res.
Proof.
  destruct a; reflexivity.
Qed.

(** What an ok response leads to: the three [void] functions return, and
    the other six return only if [res.json()] resolves. *)
Lemma onOk_returns (a : Api) (res : Response) :
  match a with
  | DeleteDocument _ | UpdatePrompt _ | StopAgent => onOk a res = Return JUndefined
  | GetToken _ _ | UploadDocument _ | GetAgentStatus | StartAgent _ =>
      onOk a res = json res
  | ListDocuments | GetPrompt =>
      returns (onOk a res) = true → returns (json res) = true
  end.
Proof. destruct a; cbn; try done; by destruct (json res). Qed.

(** [C10], as the code has it.  With a response that is not ok every
    function throws.  With one that is ok, the function completes as what
    follows its check does: [deleteDocument], [updatePrompt] and
    [stopAgent] return; [getToken], [uploadDocument], [getAgentStatus] and
    [startAgent] complete as [res.json()] does; [listDocuments] and
    [getPrompt] complete as the read of their field of the parsed body
    does.  So a function returns exactly when the response is ok and what
    follows the check returns. *)
Theorem client_throws_when_not_ok (a : Api) (res : Response) :
  fetch (requestOf a) = Return res →
  (if ok res then call fetch a = onOk a res
   else returns (call fetch a) = false) ∧
  returns (call fetch a) = ok res && returns (onOk a res).
Proof.
  intros Hfetch. rewrite call_fetches Hfetch. cbn.
  destruct (ok res); cbn [negb andb]; [done|].
  assert (returns
            match a with
            | UploadDocument _ =>
                detail ← getProp (try_catch (json res)
                                    (fun _ => JObj [("detail", JStr "Upload failed")]))
                                 "detail";
                Throw (ErrorOf (or_else detail (JStr "Upload failed")))
            | GetToken _ _ => Throw (ErrorOf (JStr "Failed to get token"))
            | ListDocuments => Throw (ErrorOf (JStr "Failed to list documents"))
            | DeleteDocument _ => Throw (ErrorOf (JStr "Failed to delete document"))
            | GetPrompt => Throw (ErrorOf (JStr "Failed to get prompt"))
            | UpdatePrompt _ => Throw (ErrorOf (JStr "Failed to update prompt"))
            | GetAgentStatus => Throw (ErrorOf (JStr "Failed to get agent status"))
            | StartAgent _ => Throw (ErrorOf (JStr "Failed to start agent"))
            | StopAgent => Throw (ErrorOf (JStr "Failed to stop agent"))
            end = false) as ->; [|done].
  destruct a; try done. by destruct (getProp _ _).
Qed.

End ClientProperties.

Lemma client_throws_when_not_ok_witness :
  returns (Client.call
             (fun _ => Return {| Client.ok := false;
                                 Client.json := Return (JObj [("detail", JStr "Too large")]) |})
             (Client.UploadDocument (Client.mkFile "a.txt" "x"))) = false ∧
  returns (Client.call
             (fun _ => Return {| Client.ok := false;
                                 Client.json := Return (JObj [("detail", JStr "Too large")]) |})
             (Client.UploadDocument (Client.mkFile "a.txt" "x"))) = false && true.
Proof.
  apply (client_throws_when_not_ok
           (fun _ => Return {| Client.ok := false;
                               Client.json := Return (JObj [("detail", JStr "Too large")]) |})
           (Client.UploadDocument (Client.mkFile "a.txt" "x"))
           {| Client.ok := false;
              Client.json := Return (JObj [("detail", JStr "Too large")]) |}).
  reflexivity.
Defined.

(** [C10], as the specification has it, fails from left to right: an ok
    response does not make the function return.  [getToken] on an ok
    response whose body is not JSON throws the rejection of [res.json()],
    and [listDocuments] on an ok response whose body is [null] throws on
    reading [data.documents]. *)
Lemma ok_response_may_still_throw :
  Client.ok {| Client.ok := true; Client.json := Throw SyntaxError |} = true ∧
  Client.getToken
    (fun _ => Return {| Client.ok := true; Client.json := Throw SyntaxError |})
    None None = Throw SyntaxError ∧
  Client.listDocuments
    (fun _ => Return {| Client.ok := true; Client.json := Return JNull |})
    = Throw TypeError.
Proof. repeat split. Qed.

(** ** The session registry *)

Section Registry.
Import SessionRegistry.

Lemma active_count_app (r1 r2 : list Session) :
  active_count (r1 ++ r2) = active_count r1 + active_count r2.
Proof. by rewrite /active_count List.filter_app length_app. Qed.

Lemma existsb_is_active (reg : list Session) :
  existsb is_active reg = false ↔ active_count reg = 0.
Proof.
  rewrite /active_count. induction reg as [|s reg IH]; [done|].
  cbn [existsb List.filter]. by destruct (is_active s).
Qed.

Lemma disconnect_active_count (sid : nat) (reg : list Session) :
  active_count (disconnect sid reg) ≤ active_count reg.
Proof.
  rewrite /active_count /disconnect. induction reg as [|s reg IH]; [done|].
  cbn [map List.filter].
  destruct (session_id s =? sid); cbn [is_active lifecycle];
    destruct (is_active s); cbn [length]; lia.
Qed.

Lemma step_at_most_one (reg : list Session) (op : Op) :
  active_count reg ≤ 1 → active_count (step reg op) ≤ 1.
Proof.
  intros Hreg. destruct op as [p|sid]; cbn [step].
  - rewrite /connect. destruct (existsb is_active reg) eqn:Hex; cbn [fst]; [done|].
    apply existsb_is_active in Hex. rewrite active_count_app Hex. cbn. lia.
  - pose proof (disconnect_active_count sid reg). lia.
Qed.

Lemma foldl_step_at_most_one (ops : list Op) (reg : list Session) :
  active_count reg ≤ 1 → active_count (foldl step reg ops) ≤ 1.
Proof.
  revert reg. induction ops as [|op ops IH]; intros reg Hreg; [done|].
  cbn [foldl]. by apply IH, step_at_most_one.
Qed.

(** [C6] After any sequence of connections and disconnections at most one
    session of the registry is [Active]; while one is, a connection
    attempt returns the session-conflict error at once and leaves the
    registry as it is, with nothing kept for later, and while none is, it
    succeeds with a new [Active] session. *)
Theorem single_active_session (ops : list Op) (p : string) :
  active_count (run ops) ≤ 1 ∧
  (0 < active_count (run ops) →
   connect p (run ops) = (run ops, inl SessionConflict)) ∧
  (active_count (run ops) = 0 →
   snd (connect p (run ops)) = inr (length (run ops)) ∧
   active_count (fst (connect p (run ops))) = 1).
Proof.
  split; [apply foldl_step_at_most_one; cbn; lia|].
  rewrite /connect. split; intros Hcount.
  - destruct (existsb is_active (run ops)) eqn:Hex; [done|].
    apply existsb_is_active in Hex. lia.
  - apply existsb_is_active in Hcount as Hex. rewrite Hex. cbn [fst snd].
    split; [done|]. by rewrite active_count_app Hcount.
Qed.

End Registry.

Lemma single_active_session_witness :
  let ops := [SessionRegistry.Connect "guide"] in
  SessionRegistry.active_count (SessionRegistry.run ops) ≤ 1 ∧
  SessionRegistry.connect "clerk" (SessionRegistry.run ops) =
    (SessionRegistry.run ops, inl SessionRegistry.SessionConflict) ∧
  snd (SessionRegistry.connect "clerk" (SessionRegistry.run [])) = inr 0.
Proof.
  pose proof (single_active_session [SessionRegistry.Connect "guide"] "clerk")
    as (H1 & H2 & _).
  pose proof (single_active_session [] "clerk") as (_ & _ & H3).
  split; [exact H1|]. split; [apply H2; vm_compute; lia|].
  apply H3. reflexivity.
Defined.

(** * Further properties of the code *)

(** ** Strings *)

Lemma string_app_assoc (s1 s2 s3 : string) :
  (s1 +:+ s2) +:+ s3 = s1 +:+ (s2 +:+ s3).
Proof.
  induction s1 as [|a s1 IH]; [done|].
  change (String a ((s1 +:+ s2) +:+ s3) = String a (s1 +:+ (s2 +:+ s3))).
  by rewrite IH.
Qed.

Lemma string_length_app (s1 s2 : string) :
  String.length (s1 +:+ s2) = String.length s1 + String.length s2.
Proof.
  induction s1 as [|a s1 IH]; [done|].
  change (S (String.length (s1 +:+ s2)) = S (String.length s1 + String.length s2)).
  by rewrite IH.
Qed.

(** [join] of a list with one more element at its end. *)
Lemma joinText_snoc (segs : list Segment) (s : Segment) :
  segs ≠ [] → joinText (segs ++ [s]) = joinText segs +:+ " " +:+ seg_text s.
Proof.
  rewrite /joinText. induction segs as [|a [|b rest] IH]; intros Hne; [done|done|].
  change (seg_text a +:+ " " +:+ String.concat " " (map seg_text ((b :: rest) ++ [s]))
          = (seg_text a +:+ " " +:+ String.concat " " (map seg_text (b :: rest)))
              +:+ " " +:+ seg_text s).
  rewrite IH //. by rewrite !string_app_assoc.
Qed.

(** ** The reconciler: growth, bounds, and what it never does *)

(** [X1] While a turn is open and its text has been streamed, a new
    non-final segment at the end of the list streams the text streamed
    before, a space, and the text of the new segment. *)
Theorem streamed_text_grows (st : CallState) (segs : list Segment) (s : Segment) :
  uncommitted st segs ≠ [] →
  lastText st = joinText (uncommitted st segs) →
  final s = false →
  agentTranscriptionsEffect st (segs ++ [s]) =
    ({| committedIndex := committedIndex st;
        lastText := lastText st +:+ " " +:+ seg_text s;
        streamingActive := true |},
     [OnAgentStream (lastText st +:+ " " +:+ seg_text s) false]).
Proof.
  intros Hne Hlast Hfinal.
  assert (uncommitted st (segs ++ [s]) = uncommitted st segs ++ [s]) as Hcur.
  { apply uncommitted_nonempty in Hne as Hlt. rewrite /uncommitted drop_app_le //. lia. }
  assert (open_snapshot st (segs ++ [s])) as Hopen.
  { split; rewrite Hcur; [by destruct (uncommitted st segs)|].
    by rewrite /allFinal forallb_app /= Hfinal andb_false_r. }
  rewrite (effect_open _ _ Hopen) Hcur joinText_snoc // -Hlast.
  destruct (String.eqb_spec (lastText st +:+ " " +:+ seg_text s) (lastText st))
    as [Heq|Hneq]; [|done].
  apply (f_equal String.length) in Heq.
  rewrite !string_length_app /= in Heq. lia.
Qed.

Lemma streamed_text_grows_witness :
  agentTranscriptionsEffect
    {| committedIndex := 1; lastText := "Our refund"; streamingActive := true |}
    ([seg "Hello" true; seg "Our refund" false] ++ [seg "policy" false]) =
    ({| committedIndex := 1; lastText := "Our refund" +:+ " " +:+ "policy";
        streamingActive := true |},
     [OnAgentStream ("Our refund" +:+ " " +:+ "policy") false]).
Proof.
  apply (streamed_text_grows
           {| committedIndex := 1; lastText := "Our refund"; streamingActive := true |}
           [seg "Hello" true; seg "Our refund" false] (seg "policy" false)).
  - discriminate.
  - reflexivity.
  - reflexivity.
Defined.

(** [X2] A run calls [onAgentStream] at most once and calls nothing else:
    a sequence of runs makes no more calls than it has runs, all of them
    [onAgentStream]. *)
Theorem runs_emit_at_most_once_each (history : list (list Segment))
    (st : CallState) :
  length (snd (runEffects st history)) ≤ length history ∧
  Forall (fun c => ∃ t f, c = OnAgentStream t f) (snd (runEffects st history)).
Proof.
  revert st. induction history as [|segs later IH]; intros st.
  - split; [done|constructor].
  - rewrite runEffects_cons. cbn [snd length].
    destruct (IH (fst (agentTranscriptionsEffect st segs))) as [Hlen Hall].
    rewrite length_app Forall_app.
    destruct (effect_calls st segs) as [->|(-> & _ & _)]; cbn [length].
    + split; [lia|]. split; [constructor|done].
    + split; [lia|]. split; [|done]. repeat constructor. eauto.
Qed.

(** [X3] From refs where streaming never activated, [streamingActiveRef]
    is true after a sequence of runs exactly when one of them called
    [onAgentStream]: the fallback is shut off by an update actually streamed
    and by nothing else. *)
Theorem streaming_active_iff_streamed (history : list (list Segment))
    (st : CallState) :
  streamingActive st = false →
  (streamingActive (fst (runEffects st history)) = true ↔
   snd (runEffects st history) ≠ []).
Proof.
  intros Hsa. split; [|apply runEffects_streamingActive_set].
  revert st Hsa. induction history as [|segs later IH]; intros st Hsa.
  - cbn. congruence.
  - rewrite runEffects_cons. cbn [fst snd]. intros Hactive.
    destruct (effect_calls st segs) as [Hnil|(-> & _ & _)]; [|done].
    rewrite Hnil app_nil_l. apply IH; [|done].
    destruct (snapshot_cases st segs) as [->|[[Hne Hcur]|[Hopen|Hclosing]]].
    + done.
    + by rewrite effect_exhausted.
    + rewrite (effect_open _ _ Hopen) in Hnil |- *.
      by destruct (String.eqb _ _).
    + rewrite (effect_closing _ _ Hclosing) in Hnil |- *.
      by destruct (String.eqb _ _).
Qed.

Lemma streaming_active_iff_streamed_witness :
  streamingActive (fst (runEffects VoiceRoom.initial [[seg "" true]; [seg "Hi" false]])) = true ↔
  snd (runEffects VoiceRoom.initial [[seg "" true]; [seg "Hi" false]]) ≠ [].
Proof.
  apply (streaming_active_iff_streamed [[seg "" true]; [seg "Hi" false]] VoiceRoom.initial).
  reflexivity.
Defined.

(** [X4] A non-empty list that is no longer than the cursor has no
    uncommitted segment: over any sequence of such lists the effect calls
    nothing and writes no ref, whatever the segments hold. *)
Theorem no_update_while_list_within_cursor (history : list (list Segment))
    (st : CallState) :
  Forall (fun segs => segs ≠ [] ∧ length segs ≤ committedIndex st) history →
  runEffects st history = (st, []).
Proof.
  induction history as [|segs later IH]; intros Hall; [done|].
  apply Forall_cons in Hall as [[Hne Hlen] Hlater].
  rewrite runEffects_cons effect_exhausted //.
  { rewrite /uncommitted. by apply drop_ge. }
  cbn [fst snd]. by rewrite IH.
Qed.

Lemma no_update_while_list_within_cursor_witness :
  runEffects {| committedIndex := 2; lastText := ""; streamingActive := true |}
    [ [seg "Hello" true; seg "there" true];
      [seg "Goodbye" false; seg "now" false];
      [seg "Hello" true] ] =
    ({| committedIndex := 2; lastText := ""; streamingActive := true |}, []).
Proof.
  apply (no_update_while_list_within_cursor
           [ [seg "Hello" true; seg "there" true];
             [seg "Goodbye" false; seg "now" false];
             [seg "Hello" true] ]
           {| committedIndex := 2; lastText := ""; streamingActive := true |}).
  repeat constructor; cbn; (discriminate || lia).
Defined.

(** ** The transcript over sequences of calls *)

(** One call and its render: the list does not shrink, grows by one message
    at most, and keeps every message before its last one. *)
Lemma dispatch_frame (run : App.UpdaterRun) (c : Callback) (a : App.AppState) :
  length (App.transcriptMessages a) ≤
    length (App.transcriptMessages (App.dispatch run c a)) ∧
  length (App.transcriptMessages (App.dispatch run c a)) ≤
    length (App.transcriptMessages a) + 1 ∧
  take (length (App.transcriptMessages a) - 1)
       (App.transcriptMessages (App.dispatch run c a)) =
    take (length (App.transcriptMessages a) - 1) (App.transcriptMessages a).
Proof.
  destruct c as [msg|fullText isFinal|sources]; cbn [App.dispatch].
  - cbn. rewrite length_app /=. repeat split; [lia|lia|].
    rewrite take_app_le //. lia.
  - destruct (handleAgentStream_cases run fullText isFinal a)
      as [[_ ->]|[(_ & init & m & Hprev & _ & ->)|(_ & _ & ->)]].
    + rewrite length_app /=. repeat split; [lia|lia|].
      rewrite take_app_le //. lia.
    + rewrite Hprev !length_app /=. repeat split; [lia|lia|].
      replace (length init + 1 - 1) with (length init) by lia.
      by rewrite !take_app_length.
    + repeat split; lia.
  - cbn. repeat split; lia.
Qed.

(** [X6] Whatever calls reach [App], in whatever order, and whether the
    updater of each runs inside the call or at the render after it, the
    transcript never shrinks, grows by at most one message per call, and
    every message but the last one of the list it started from stays as it
    was: only the newest bubble is ever rewritten. *)
Theorem transcript_history_stable (calls : list (App.UpdaterRun * Callback))
    (a : App.AppState) :
  length (App.transcriptMessages a) ≤
    length (App.transcriptMessages (App.deliverEach calls a)) ∧
  length (App.transcriptMessages (App.deliverEach calls a)) ≤
    length (App.transcriptMessages a) + length calls ∧
  take (length (App.transcriptMessages a) - 1)
       (App.transcriptMessages (App.deliverEach calls a)) =
    take (length (App.transcriptMessages a) - 1) (App.transcriptMessages a).
Proof.
  revert a. induction calls as [|[run c] calls IH]; intros a.
  - cbn. repeat split; lia.
  - change (App.deliverEach ((run, c) :: calls) a)
      with (App.deliverEach calls (App.dispatch run c a)).
    destruct (dispatch_frame run c a) as (Hle & Hge & Htake).
    destruct (IH (App.dispatch run c a)) as (Hle' & Hge' & Htake').
    cbn [length]. repeat split; [lia|lia|].
    rewrite -Htake.
    apply (f_equal (take (length (App.transcriptMessages a) - 1))) in Htake'.
    rewrite !take_take in Htake'.
    rewrite !Nat.min_l in Htake'; try lia. exact Htake'.
Qed.

(** ** A streamed turn in the transcript *)

(** For an update that is not final the two ways of running its updater
    agree. *)
Lemma handleAgentStream_not_final (run : App.UpdaterRun) (fullText : string)
    (st : App.AppState) :
  App.handleAgentStream run fullText false st =
    App.handleAgentStream App.AtCall fullText false st.
Proof. by destruct run. Qed.

Lemma handleAgentStream_replaces (fullText : string) (isFinal : bool)
    (init : list TranscriptMessage) (t : jsval) (rs : jsval) :
  App.handleAgentStream App.AtCall fullText isFinal
    {| App.transcriptMessages := init ++ [ {| role := agent; text := t |} ];
       App.ragSources := rs; App.isStreaming := true |} =
    {| App.transcriptMessages := init ++ [agentBubble fullText];
       App.ragSources := rs; App.isStreaming := negb isFinal |}.
Proof.
  rewrite /App.handleAgentStream. cbn [App.isStreaming App.transcriptMessages App.ragSources].
  destruct (agentStreamUpdater_cases fullText true (init ++ [ {| role := agent; text := t |} ]))
    as [[Hfalse _]|[(_ & init' & m & Hprev & _ & ->)|(_ & Hlast & _)]].
  - discriminate.
  - apply app_inj_tail in Hprev as [-> _]. by destruct isFinal.
  - exfalso. apply Hlast. by rewrite last_snoc.
Qed.

(** A final update whose updater runs at the render: the ref is cleared
    before the updater reads it, which then opens a bubble and marks
    streaming active. *)
Lemma handleAgentStream_final_at_render (fullText : string) (st : App.AppState) :
  App.handleAgentStream App.AtRender fullText true st =
    {| App.transcriptMessages := App.transcriptMessages st ++ [agentBubble fullText];
       App.ragSources := App.ragSources st; App.isStreaming := true |}.
Proof. reflexivity. Qed.

Lemma deliver_app (run : App.UpdaterRun) (c1 c2 : list Callback) (a : App.AppState) :
  App.deliver run (c1 ++ c2) a = App.deliver run c2 (App.deliver run c1 a).
Proof. apply foldl_app. Qed.

(** Updates that are not final, delivered while the newest bubble is the
    agent's and streaming is marked active: the bubble ends with the text of
    the last of them. *)
Lemma deliver_stream_replaces (run : App.UpdaterRun) (texts : list string)
    (t : string) (init : list TranscriptMessage) (t0 : jsval) (rs : jsval) :
  App.deliver run (map (fun x => OnAgentStream x false) (texts ++ [t]))
    {| App.transcriptMessages := init ++ [ {| role := agent; text := t0 |} ];
       App.ragSources := rs; App.isStreaming := true |} =
    {| App.transcriptMessages := init ++ [agentBubble t];
       App.ragSources := rs; App.isStreaming := true |}.
Proof.
  revert t0. induction texts as [|x texts IH]; intros t0.
  - cbn. by rewrite handleAgentStream_not_final handleAgentStream_replaces.
  - cbn [map app].
    change (App.deliver run (?c :: ?cs) ?a)
      with (App.deliver run cs (App.dispatch run c a)).
    cbn [App.dispatch].
    rewrite handleAgentStream_not_final handleAgentStream_replaces.
    cbn [negb]. apply IH.
Qed.

(** The same, delivered while streaming is not marked active: one new
    bubble. *)
Lemma deliver_stream_appends (run : App.UpdaterRun) (texts : list string)
    (t : string) (a : App.AppState) :
  App.isStreaming a = false →
  App.deliver run (map (fun x => OnAgentStream x false) (texts ++ [t])) a =
    {| App.transcriptMessages := App.transcriptMessages a ++ [agentBubble t];
       App.ragSources := App.ragSources a; App.isStreaming := true |}.
Proof.
  intros Hfalse. destruct texts as [|x texts].
  - cbn. rewrite handleAgentStream_not_final.
    by rewrite /App.handleAgentStream /App.agentStreamUpdater Hfalse.
  - cbn [map app].
    change (App.deliver run (?c :: ?cs) ?a)
      with (App.deliver run cs (App.dispatch run c a)).
    cbn [App.dispatch]. rewrite handleAgentStream_not_final.
    rewrite {1}/App.handleAgentStream /App.agentStreamUpdater Hfalse. cbn [negb].
    apply (deliver_stream_replaces run texts t (App.transcriptMessages a)).
Qed.

(** Calls that are all [onAgentStream] with [isFinal] false. *)
Lemma non_final_stream_calls (calls : list Callback) :
  Forall (fun c => ∃ t f, c = OnAgentStream t f) calls →
  finalUpdates calls = [] →
  ∃ texts, calls = map (fun x => OnAgentStream x false) texts.
Proof.
  induction calls as [|c calls IH]; intros Hall Hfin; [by exists []|].
  apply Forall_cons in Hall as [(t & f & ->) Hall].
  rewrite /finalUpdates in Hfin. cbn in Hfin. destruct f; [done|].
  destruct (IH Hall Hfin) as [texts ->]. by exists (t :: texts).
Qed.

Lemma runEffects_stream_calls (history : list (list Segment)) (st : CallState) :
  Forall (fun c => ∃ t f, c = OnAgentStream t f) (snd (runEffects st history)).
Proof.
  revert st. induction history as [|segs later IH]; intros st; [constructor|].
  rewrite runEffects_cons. cbn [snd]. apply Forall_app. split; [|apply IH].
  destruct (effect_calls st segs) as [->|(-> & _ & _)]; repeat constructor. eauto.
Qed.

(** [X7] The updates of one turn (lists that leave it open, then one that
    closes it), each rendered before the next, delivered to a transcript
    where streaming is not marked active.  The transcript it started from is
    kept, the sources are left alone, and the newest bubble holds the joined
    text of the closing list.  It is the one bubble added when the closing
    run streamed nothing (streaming then stays marked active) or when the
    updater of the final update ran inside the call (streaming is then
    cleared).  When that updater ran at the render, streaming stays marked
    active and, if an update was streamed before it, the final text is in a
    second bubble after the one streamed so far. *)
Theorem turn_in_the_transcript (run : App.UpdaterRun) (st : CallState)
    (pre : list (list Segment)) (closing : list Segment) (a : App.AppState) :
  Forall (open_snapshot st) pre →
  closing_snapshot st closing →
  App.isStreaming a = false →
  snd (runEffects st (pre ++ [closing])) ≠ [] →
  App.deliver run (snd (runEffects st (pre ++ [closing]))) a =
    if String.eqb (joinText (uncommitted st closing))
                  (lastText (fst (runEffects st pre)))
    then
      {| App.transcriptMessages :=
           App.transcriptMessages a ++ [agentBubble (joinText (uncommitted st closing))];
         App.ragSources := App.ragSources a;
         App.isStreaming := true |}
    else
      match run, snd (runEffects st pre) with
      | App.AtCall, _ =>
          {| App.transcriptMessages :=
               App.transcriptMessages a ++
                 [agentBubble (joinText (uncommitted st closing))];
             App.ragSources := App.ragSources a;
             App.isStreaming := false |}
      | App.AtRender, [] =>
          {| App.transcriptMessages :=
               App.transcriptMessages a ++
                 [agentBubble (joinText (uncommitted st closing))];
             App.ragSources := App.ragSources a;
             App.isStreaming := true |}
      | App.AtRender, _ :: _ =>
          {| App.transcriptMessages :=
               App.transcriptMessages a ++
                 [agentBubble (lastText (fst (runEffects st pre)));
                  agentBubble (joinText (uncommitted st closing))];
             App.ragSources := App.ragSources a;
             App.isStreaming := true |}
      end.
Proof.
  intros Hpre Hclosing Hfalse.
  destruct (open_runs pre st st eq_refl Hpre) as (Hci & _ & Hfin & Hlast).
  set (mid := fst (runEffects st pre)) in *.
  assert (closing_snapshot mid closing) as Hclosing'.
  { by rewrite /closing_snapshot (uncommitted_same_cursor st mid). }
  rewrite runEffects_app. fold mid. cbn [fst snd runEffects].
  pose proof (effect_closing _ _ Hclosing') as Heff.
  rewrite (uncommitted_same_cursor st mid) // in Heff.
  destruct (agentTranscriptionsEffect mid closing) as [st' calls].
  cbn [fst snd]. rewrite app_nil_r.
  destruct (non_final_stream_calls _ (runEffects_stream_calls pre st) Hfin)
    as [texts Htexts].
  rewrite Htexts in Hlast |- *.
  assert (texts = [] ∨ ∃ texts', texts = texts' ++ [lastText mid]) as Htail.
  { destruct Hlast as [[Hnil _]|[b Hb]].
    - left. by destruct texts.
    - right. destruct texts as [|x texts' _] using rev_ind; [done|].
      rewrite map_app /= last_snoc in Hb. injection Hb as -> _. by exists texts'. }
  destruct (String.eqb_spec (joinText (uncommitted st closing)) (lastText mid))
    as [Heq|Hneq]; injection Heff as -> ->.
  - rewrite app_nil_r. intros Hsome.
    destruct Htail as [->|[texts' ->]]; [done|].
    rewrite Heq. by apply deliver_stream_appends.
  - intros _. rewrite deliver_app.
    destruct Htail as [->|[texts' ->]].
    + cbn [map]. change (App.deliver run [] a) with a. cbn.
      destruct run.
      * by rewrite /App.handleAgentStream /App.agentStreamUpdater Hfalse.
      * by rewrite handleAgentStream_final_at_render.
    + rewrite deliver_stream_appends //. cbn.
      destruct run.
      * rewrite handleAgentStream_replaces.
        by destruct (map _ (texts' ++ [lastText mid])) eqn:E.
      * rewrite handleAgentStream_final_at_render. cbn.
        destruct (map _ (texts' ++ [lastText mid])) eqn:E.
        { by destruct texts'. }
        by rewrite -app_assoc.
Qed.

Lemma turn_in_the_transcript_witness :
  App.deliver App.AtRender
    (snd (runEffects VoiceRoom.initial
            ([[seg "Helo" false]] ++ [[seg "Hello" true]])))
    App.initial =
    {| App.transcriptMessages := [agentBubble "Helo"; agentBubble "Hello"];
       App.ragSources := JArr [];
       App.isStreaming := true |}.
Proof.
  apply (turn_in_the_transcript App.AtRender VoiceRoom.initial
           [[seg "Helo" false]] [seg "Hello" true] App.initial).
  - repeat constructor. discriminate.
  - split; [discriminate|reflexivity].
  - reflexivity.
  - discriminate.
Defined.

(** ** The data channel over sequences of events *)

Lemma onDataSequence_app (e1 e2 : list (Completion jsval)) (s : System.SystemState) :
  onDataSequence (e1 ++ e2) s = onDataSequence e2 (onDataSequence e1 s).
Proof. apply foldl_app. Qed.

(** [X8] The sources panel holds the sources of the latest [rag_sources]
    event, or an empty array if that event has none or a falsy one: what the
    panel held before, and every payload of another kind before or after
    the event, is of no effect on it. *)
Theorem sources_panel_shows_latest (earlier later : list (Completion jsval))
    (msg v : jsval) (s : System.SystemState) :
  getProp msg "type" = Return (JStr "rag_sources") →
  getProp msg "sources" = Return v →
  Forall (fun p => payloadKind p ≠ RagSourcesPayload) later →
  App.ragSources (System.app (onDataSequence (earlier ++ [Return msg] ++ later) s)) =
    or_else v (JArr []).
Proof.
  intros Hty Hsrc Hlater. rewrite !onDataSequence_app.
  set (s1 := onDataSequence earlier s). clearbody s1.
  assert (App.ragSources (System.app (onDataSequence [Return msg] s1)) =
            or_else v (JArr [])) as Hset.
  { cbn. rewrite /System.onDataReceived /handleData /handleData_body. cbn.
    destruct msg; try discriminate Hty. cbn in *.
    injection Hty as ->. injection Hsrc as ->. done. }
  revert Hset. generalize (onDataSequence [Return msg] s1). clear s1.
  induction later as [|p later IH]; intros s2 Hset; [done|].
  apply Forall_cons in Hlater as [Hp Hlater]. cbn. apply IH; [done|].
  pose proof (handleData_by_kind (System.call s2) p) as Hkind.
  rewrite /System.onDataReceived. cbn [System.app].
  destruct (payloadKind p); [| done |].
  - by destruct Hkind as [->|[m ->]].
  - by rewrite Hkind.
Qed.

Lemma sources_panel_shows_latest_witness :
  App.ragSources
    (System.app
       (onDataSequence
          ([Return (ragSourcesEvent (JArr [JStr "old"]))] ++
           [Return (ragSourcesEvent JUndefined)] ++
           [Return (transcriptEvent "user" (JStr "Hi")); Throw SyntaxError])
          System.initial)) =
    or_else JUndefined (JArr []).
Proof.
  apply (sources_panel_shows_latest
           [Return (ragSourcesEvent (JArr [JStr "old"]))]
           [Return (transcriptEvent "user" (JStr "Hi")); Throw SyntaxError]
           (ragSourcesEvent JUndefined) JUndefined System.initial).
  - reflexivity.
  - reflexivity.
  - repeat constructor; discriminate.
Defined.

(** [X9] Data events only ever append to the transcript: after any
    sequence of them the transcript it started from is a prefix of the new
    one, at most one message was added per event, and the refs of
    [ActiveCall] are as they were. *)
Theorem data_events_append_only (events : list (Completion jsval))
    (s : System.SystemState) :
  System.call (onDataSequence events s) = System.call s ∧
  ∃ added,
    App.transcriptMessages (System.app (onDataSequence events s)) =
      App.transcriptMessages (System.app s) ++ added ∧
    length added ≤ length events.
Proof.
  revert s. induction events as [|p events IH]; intros s.
  - split; [done|]. exists []. by rewrite app_nil_r.
  - cbn. destruct (IH (System.onDataReceived p s)) as (Hcall & added & Hmsgs & Hlen).
    split; [by rewrite Hcall|]. rewrite Hmsgs.
    pose proof (handleData_by_kind (System.call s) p) as Hkind.
    rewrite /System.onDataReceived. cbn [System.app].
    destruct (payloadKind p).
    + destruct Hkind as [->|[m ->]]; cbn.
      * exists added. split; [done|lia].
      * exists (m :: added). rewrite -app_assoc. split; [done|cbn; lia].
    + destruct Hkind as [sources ->]. cbn. exists added. split; [done|lia].
    + rewrite Hkind. cbn. exists added. split; [done|lia].
Qed.

(** ** The API client: failures *)

Section ClientFailures.
Import Client.
Variable fetch : Request → Completion Response.

(** [X10] No client function catches a rejected [fetch]: when no response
    arrives, each of the nine rejects with the very error [fetch] rejected
    with. *)
Theorem fetch_rejection_propagates (a : Api) (e : JsError) :
  fetch (requestOf a) = Throw e → call fetch a = Throw e.
Proof. intros Hfetch. by rewrite call_fetches Hfetch. Qed.

(** [X11] What [uploadDocument] throws on a response that is not ok: an
    [Error] built from the [detail] of the parsed body when that is truthy,
    and from ['Upload failed'] when the body does not parse or is not an
    object or has no truthy [detail]; on a body that is [null], the
    [TypeError] of reading [detail]. *)
Theorem upload_error_message (file : File) (res : Response) :
  fetch (requestOf (UploadDocument file)) = Return res →
  ok res = false →
  uploadDocument fetch file =
    match json res with
    | Throw _ => Throw (ErrorOf (JStr "Upload failed"))
    | Return JNull | Return JUndefined => Throw TypeError
    | Return (JObj fields) =>
        Throw (ErrorOf (if truthy (lookup_field "detail" fields)
                        then lookup_field "detail" fields
                        else JStr "Upload failed"))
    | Return _ => Throw (ErrorOf (JStr "Upload failed"))
    end.
Proof.
  intros Hfetch Hok.
  change (uploadDocument fetch file) with (call fetch (UploadDocument file)).
  rewrite call_fetches Hfetch. cbn. rewrite Hok. cbn.
  by destruct (json res) as [[]|].
Qed.

End ClientFailures.

Lemma fetch_rejection_propagates_witness :
  Client.call (fun _ => Throw TypeError) (Client.DeleteDocument "doc-1") = Throw TypeError.
Proof.
  apply (fetch_rejection_propagates (fun _ => Throw TypeError)
           (Client.DeleteDocument "doc-1") TypeError).
  reflexivity.
Defined.

Lemma upload_error_message_witness :
  Client.uploadDocument
    (fun _ => Return {| Client.ok := false;
                        Client.json := Return (JObj [("detail", JStr "Unsupported file type")]) |})
    (Client.mkFile "notes.exe" "x") =
    Throw (ErrorOf (JStr "Unsupported file type")).
Proof.
  apply (upload_error_message
           (fun _ => Return {| Client.ok := false;
                               Client.json := Return (JObj [("detail", JStr "Unsupported file type")]) |})
           (Client.mkFile "notes.exe" "x")
           {| Client.ok := false;
              Client.json := Return (JObj [("detail", JStr "Unsupported file type")]) |}).
  - reflexivity.
  - reflexivity.
Defined.

(** ** [DocUpload]: uploads and deletions against a backend *)

Section DocUploadProperties.
Import Client Backend.
Context {S : Type}.
Variable server : Request → S → Completion Response * S.

Lemma callApi_sent (a : Api) (w : World) :
  sent (snd (callApi server a w)) = sent w ++ [requestOf a].
Proof. done. Qed.

(** The loop over the files sends one upload per file, in order, and stops
    with the first one that throws. *)
Lemma uploadEach_sent (files : list File) (w : World (S := S)) :
  match fst (DocUpload.uploadEach server files w) with
  | Return _ =>
      sent (snd (DocUpload.uploadEach server files w)) = sent w ++ uploadRequests files
  | Throw _ =>
      ∃ done bad rest, files = done ++ bad :: rest ∧
        sent (snd (DocUpload.uploadEach server files w)) =
          sent w ++ uploadRequests (done ++ [bad])
  end.
Proof.
  revert w. induction files as [|file files IH]; intros w.
  - cbn. by rewrite app_nil_r.
  - cbn [DocUpload.uploadEach].
    destruct (callApi server (UploadDocument file) w) as [r w1] eqn:Hcall.
    assert (sent w1 = sent w ++ [requestOf (UploadDocument file)]) as Hw1.
    { by rewrite -(callApi_sent (UploadDocument file) w) Hcall. }
    destruct r as [v|e].
    + specialize (IH w1).
      destruct (fst (DocUpload.uploadEach server files w1)).
      * rewrite IH Hw1 -app_assoc. done.
      * destruct IH as (done & bad & rest & -> & ->).
        exists (file :: done), bad, rest. split; [done|].
        by rewrite Hw1 -app_assoc.
    + cbn. exists [], file, files. split; [done|]. by rewrite Hw1.
Qed.

Lemma loadDocuments_frame (st : DocUpload.DocState) (w : World (S := S)) :
  sent (snd (DocUpload.loadDocuments server st w)) = sent w ++ [requestOf ListDocuments] ∧
  DocUpload.uploading (fst (DocUpload.loadDocuments server st w)) = DocUpload.uploading st ∧
  DocUpload.error (fst (DocUpload.loadDocuments server st w)) = DocUpload.error st ∧
  DocUpload.dragOver (fst (DocUpload.loadDocuments server st w)) = DocUpload.dragOver st ∧
  DocUpload.fileInputValue (fst (DocUpload.loadDocuments server st w)) =
    DocUpload.fileInputValue st ∧
  match fst (callApi server ListDocuments w) with
  | Return docs => DocUpload.documents (fst (DocUpload.loadDocuments server st w)) = docs
  | Throw _ => DocUpload.documents (fst (DocUpload.loadDocuments server st w)) =
                 DocUpload.documents st
  end.
Proof.
  rewrite /DocUpload.loadDocuments.
  pose proof (callApi_sent ListDocuments w) as Hsent.
  destruct (callApi server ListDocuments w) as [[docs|e] w1]; cbn in *; by rewrite Hsent.
Qed.

Lemma afterUploads_sent (files : list File) (w : World (S := S)) :
  sent (afterUploads server files w) = sent w ++ uploadRequests files.
Proof.
  revert w. induction files as [|file files IH]; intros w.
  - cbn. by rewrite app_nil_r.
  - cbn [afterUploads]. rewrite IH callApi_sent -app_assoc. done.
Qed.

(** The loop stops at the first upload that throws, with its error, the
    backend as that upload left it. *)
Lemma uploadEach_stops (done : list File) (bad : File) (rest : list File)
    (e : JsError) (w : World (S := S)) :
  uploadsReturn server done w = true →
  fst (callApi server (UploadDocument bad) (afterUploads server done w)) = Throw e →
  DocUpload.uploadEach server (done ++ bad :: rest) w =
    (Throw e, snd (callApi server (UploadDocument bad) (afterUploads server done w))).
Proof.
  revert w. induction done as [|file done IH]; intros w Hdone Hbad.
  - cbn [app DocUpload.uploadEach afterUploads] in *.
    destruct (callApi server (UploadDocument bad) w) as [r w1].
    cbn [fst snd] in *. by rewrite Hbad.
  - cbn [app DocUpload.uploadEach afterUploads uploadsReturn] in *.
    apply andb_prop in Hdone as [Hfile Hdone].
    destruct (callApi server (UploadDocument file) w) as [[v|e'] w1];
      cbn [fst snd] in *; [|discriminate Hfile].
    by apply IH.
Qed.

(** [X12] When the uploads of the first files of a list return and the
    upload of the next file throws, [handleUpload] stops there: the backend
    and the requests sent are as that failing upload left them, one upload
    request for each of those files in order, none for the files after it
    and none for the list of documents.  The component shows the message of
    that error, keeps its documents, and ends with [uploading] false and the
    file input cleared. *)
Theorem upload_stops_at_first_failure (done : list File) (bad : File)
    (rest : list File) (e : JsError)
    (st : DocUpload.DocState) (w : World (S := S)) :
  uploadsReturn server done w = true →
  fst (callApi server (UploadDocument bad) (afterUploads server done w)) = Throw e →
  DocUpload.handleUpload server (Some (done ++ bad :: rest)) st w =
    ({| DocUpload.documents := DocUpload.documents st;
        DocUpload.uploading := false;
        DocUpload.dragOver := DocUpload.dragOver st;
        DocUpload.error := Some (shownMessage e);
        DocUpload.fileInputValue := "" |},
     snd (callApi server (UploadDocument bad) (afterUploads server done w))) ∧
  sent (snd (DocUpload.handleUpload server (Some (done ++ bad :: rest)) st w)) =
    sent w ++ uploadRequests (done ++ [bad]).
Proof.
  intros Hdone Hbad.
  assert (DocUpload.handleUpload server (Some (done ++ bad :: rest)) st w =
    ({| DocUpload.documents := DocUpload.documents st;
        DocUpload.uploading := false;
        DocUpload.dragOver := DocUpload.dragOver st;
        DocUpload.error := Some (shownMessage e);
        DocUpload.fileInputValue := "" |},
     snd (callApi server (UploadDocument bad) (afterUploads server done w)))) as Heq.
  { rewrite /DocUpload.handleUpload.
    rewrite (uploadEach_stops done bad rest e w Hdone Hbad).
    by destruct done. }
  split; [exact Heq|].
  rewrite Heq. cbn [snd]. rewrite callApi_sent afterUploads_sent.
  by rewrite /uploadRequests map_app -app_assoc.
Qed.

(** [X13] An upload whose files all go through sends one upload request per
    file, in the order of the list, and then asks once for the list of
    documents.  The component ends with no error, [uploading] false and the
    file input cleared; its documents are the ones listed, or, when the
    listing throws, the ones it had, with no error shown. *)
Theorem upload_success_reloads (files : list File)
    (st : DocUpload.DocState) (w : World (S := S)) :
  files ≠ [] →
  fst (DocUpload.uploadEach server files w) = Return tt →
  sent (snd (DocUpload.handleUpload server (Some files) st w)) =
    sent w ++ uploadRequests files ++ [requestOf ListDocuments] ∧
  DocUpload.error (fst (DocUpload.handleUpload server (Some files) st w)) = None ∧
  DocUpload.uploading (fst (DocUpload.handleUpload server (Some files) st w)) = false ∧
  DocUpload.fileInputValue (fst (DocUpload.handleUpload server (Some files) st w)) = "" ∧
  match fst (callApi server ListDocuments (snd (DocUpload.uploadEach server files w))) with
  | Return docs =>
      DocUpload.documents (fst (DocUpload.handleUpload server (Some files) st w)) = docs
  | Throw _ =>
      DocUpload.documents (fst (DocUpload.handleUpload server (Some files) st w)) =
        DocUpload.documents st
  end.
Proof.
  intros Hne Hok. pose proof (uploadEach_sent files w) as Hsent.
  rewrite Hok in Hsent.
  destruct files as [|file files]; [done|].
  rewrite /DocUpload.handleUpload.
  destruct (DocUpload.uploadEach server (file :: files) w) as [r w1].
  cbn [fst snd] in *. subst r.
  destruct (loadDocuments_frame
              (DocUpload.set_error None (DocUpload.set_uploading true st)) w1)
    as (Hs & _ & Herr & _ & _ & Hdocs).
  destruct (DocUpload.loadDocuments server _ w1) as [st2 w2].
  cbn [fst snd] in *. rewrite Hs Hsent -app_assoc.
  repeat split; done.
Qed.

(** [X14] A deletion that throws shows ['Failed to delete'], whatever the
    error was, and does not ask for the list again.  One that goes through
    asks for the list once and leaves the error the component showed as it
    was: an earlier message is not cleared. *)
Theorem delete_outcomes (docId : string) (st : DocUpload.DocState)
    (w : World (S := S)) :
  match fst (callApi server (DeleteDocument docId) w) with
  | Throw _ =>
      fst (DocUpload.handleDelete server docId st w) =
        DocUpload.set_error (Some (Text "Failed to delete")) st ∧
      sent (snd (DocUpload.handleDelete server docId st w)) =
        sent w ++ [requestOf (DeleteDocument docId)]
  | Return _ =>
      DocUpload.error (fst (DocUpload.handleDelete server docId st w)) =
        DocUpload.error st ∧
      sent (snd (DocUpload.handleDelete server docId st w)) =
        sent w ++ [requestOf (DeleteDocument docId); requestOf ListDocuments]
  end.
Proof.
  rewrite /DocUpload.handleDelete.
  pose proof (callApi_sent (DeleteDocument docId) w) as Hsent.
  destruct (callApi server (DeleteDocument docId) w) as [[v|e] w1]; cbn [fst snd] in *.
  - destruct (loadDocuments_frame st w1) as (Hs & _ & Herr & _).
    split; [done|]. by rewrite Hs Hsent -app_assoc.
  - done.
Qed.

(** ** [VoiceRoom]: connecting *)

(** [X15] [connect] sends one token request and ends with [isConnecting]
    false.  With an ok response whose body parses, the token data is that
    body and no error is shown.  Otherwise the token data is what it was, so
    a call in progress is not ended, and the error shown is ['Failed to get
    token'] for a response that is not ok and the message of the rejection
    for a body that does not parse or a request that got no response. *)
Theorem connect_outcomes (st : Room.RoomState) (w : World (S := S)) :
  Room.isConnecting (fst (Room.connect server st w)) = false ∧
  sent (snd (Room.connect server st w)) = sent w ++ [requestOf (GetToken None None)] ∧
  match fst (server (requestOf (GetToken None None)) (backend w)) with
  | Return res =>
      if ok res then
        match json res with
        | Return data =>
            Room.tokenData (fst (Room.connect server st w)) = data ∧
            Room.error (fst (Room.connect server st w)) = None
        | Throw e =>
            Room.tokenData (fst (Room.connect server st w)) = Room.tokenData st ∧
            Room.error (fst (Room.connect server st w)) = Some (shownMessage e)
        end
      else
        Room.tokenData (fst (Room.connect server st w)) = Room.tokenData st ∧
        Room.error (fst (Room.connect server st w)) = Some (Text "Failed to get token")
  | Throw e =>
      Room.tokenData (fst (Room.connect server st w)) = Room.tokenData st ∧
      Room.error (fst (Room.connect server st w)) = Some (shownMessage e)
  end.
Proof.
  rewrite /Room.connect /callApi. cbn [fst snd]. split; [done|]. split; [done|].
  rewrite call_fetches.
  destruct (fst (server (requestOf (GetToken None None)) (backend w))) as [res|e];
    cbn; [|done].
  destruct (ok res); cbn; [|done]. by destruct (json res).
Qed.

End DocUploadProperties.

Lemma upload_stops_at_first_failure_witness :
  let uploaded := [Client.mkFile "a.txt" "a"; Client.mkFile "b.txt" "b"] in
  let refused := Client.mkFile "c.txt" "c" in
  let never_sent := [Client.mkFile "d.txt" "d"] in
  let st := {| DocUpload.documents := JArr []; DocUpload.uploading := false;
               DocUpload.dragOver := false; DocUpload.error := None;
               DocUpload.fileInputValue := "d.txt" |} in
  let w := {| Backend.backend := 0; Backend.sent := [] |} in
  DocUpload.handleUpload third_request_refused
    (Some (uploaded ++ refused :: never_sent)) st w =
    ({| DocUpload.documents := JArr []; DocUpload.uploading := false;
        DocUpload.dragOver := false;
        DocUpload.error := Some (Text "Too large");
        DocUpload.fileInputValue := "" |},
     {| Backend.backend := 3;
        Backend.sent := uploadRequests (uploaded ++ [refused]) |}) ∧
  Backend.sent (snd (DocUpload.handleUpload third_request_refused
                       (Some (uploaded ++ refused :: never_sent)) st w)) =
    Backend.sent w ++ uploadRequests (uploaded ++ [refused]).
Proof.
  apply (upload_stops_at_first_failure third_request_refused
           [Client.mkFile "a.txt" "a"; Client.mkFile "b.txt" "b"]
           (Client.mkFile "c.txt" "c") [Client.mkFile "d.txt" "d"]
           (ErrorOf (JStr "Too large"))
           {| DocUpload.documents := JArr []; DocUpload.uploading := false;
              DocUpload.dragOver := false; DocUpload.error := None;
              DocUpload.fileInputValue := "d.txt" |}
           {| Backend.backend := 0; Backend.sent := [] |}).
  - reflexivity.
  - reflexivity.
Defined.

Lemma upload_success_reloads_witness :
  let files := [Client.mkFile "a.txt" "a"; Client.mkFile "b.txt" "b"] in
  let st := {| DocUpload.documents := JArr []; DocUpload.uploading := false;
               DocUpload.dragOver := false; DocUpload.error := Some (Text "Too large");
               DocUpload.fileInputValue := "b.txt" |} in
  let w := {| Backend.backend := 0; Backend.sent := [] |} in
  Backend.sent (snd (DocUpload.handleUpload third_request_refused (Some files) st w)) =
    Backend.sent w ++ uploadRequests files ++ [Client.requestOf Client.ListDocuments] ∧
  DocUpload.error (fst (DocUpload.handleUpload third_request_refused (Some files) st w)) = None ∧
  DocUpload.uploading (fst (DocUpload.handleUpload third_request_refused (Some files) st w)) = false ∧
  DocUpload.fileInputValue
    (fst (DocUpload.handleUpload third_request_refused (Some files) st w)) = "" ∧
  DocUpload.documents (fst (DocUpload.handleUpload third_request_refused (Some files) st w)) =
    DocUpload.documents st.
Proof.
  apply (upload_success_reloads third_request_refused
           [Client.mkFile "a.txt" "a"; Client.mkFile "b.txt" "b"]
           {| DocUpload.documents := JArr []; DocUpload.uploading := false;
              DocUpload.dragOver := false; DocUpload.error := Some (Text "Too large");
              DocUpload.fileInputValue := "b.txt" |}
           {| Backend.backend := 0; Backend.sent := [] |}).
  - discriminate.
  - reflexivity.
Defined.

(** ** A transcript message in the middle of a stream *)

